(** * distsql aggregator visitors

    A shallow embedding of [pkg/sql/distsql_aggregator_visitors.go]: the two
    expression visitors used by the distsql physical planner for aggregators,
    [aggExprVisitor] (behind [extractAggExprs]) and [postAggExprVisitor]
    (behind [extractPostAggrExprs]), together with the parts of the packages
    [parser], [distsqlrun] and [strings] they call. *)

From Stdlib Require Import ZArith Lia Ascii String.
From stdpp Require Import base option list strings gmap.

Local Open Scope Z_scope.

(** ** Machine integers *)

(** [uint32(i)]: conversion of an integer to Go's [uint32] keeps the low 32
    bits. *)
Definition uint32 (z : Z) : Z := z mod 2 ^ 32.

(** Go's [int] on the 64-bit platforms the program is built for: two's
    complement, arithmetic wraps around silently. *)
Definition int_min : Z := - 2 ^ 63.
Definition int_max : Z := 2 ^ 63 - 1.
Definition int_wrap (z : Z) : Z := (z + 2 ^ 63) mod 2 ^ 64 - 2 ^ 63.

(** ** Package [strings] *)

Module go_strings.

Definition is_lower (c : ascii) : bool :=
  ((97 <=? N_of_ascii c) && (N_of_ascii c <=? 122))%N.

Definition upper_byte (c : ascii) : ascii :=
  if is_lower c then ascii_of_N (N_of_ascii c - 32) else c.

(** [strings.ToUpper] of Go's standard library on ASCII strings: every
    byte ['a'..'z'] is replaced by ['A'..'Z'], every other byte is kept.
    (For a string with bytes above 127 Go maps whole runes through its
    Unicode tables; the names of aggregate functions are ASCII.) *)
Fixpoint ToUpper (s : string) : string :=
  match s with
  | EmptyString => EmptyString
  | String c s => String (upper_byte c) (ToUpper s)
  end.

(** Two bytes that are the same letter up to its case. *)
Definition same_letter (c1 c2 : ascii) : Prop :=
  c1 = c2
  ∨ (is_lower c1 = true ∧ N_of_ascii c2 = (N_of_ascii c1 - 32)%N)
  ∨ (is_lower c2 = true ∧ N_of_ascii c1 = (N_of_ascii c2 - 32)%N).

(** Two strings that differ only in the case of their letters. *)
Inductive differ_only_in_case : string → string → Prop :=
| doic_empty : differ_only_in_case EmptyString EmptyString
| doic_cons c1 c2 s1 s2 :
    same_letter c1 c2 →
    differ_only_in_case s1 s2 →
    differ_only_in_case (String c1 s1) (String c2 s2).

End go_strings.

(** ** Package [parser]: the expression tree and its walk *)

Module parser.

(** Modelled from the spec: [FuncExpr.Type] of package [parser] (not part
    of this file); the source only compares it with [DistinctFuncType], so
    the call's distinct flag is [funcType_eqb Type DistinctFuncType]. *)
Inductive funcType := NoFuncType | DistinctFuncType | AllFuncType.

Definition funcType_eqb (a b : funcType) : bool :=
  match a, b with
  | NoFuncType, NoFuncType
  | DistinctFuncType, DistinctFuncType
  | AllFuncType, AllFuncType => true
  | _, _ => false
  end.

(** Modelled from the spec: the operator of a [BinaryOp] node. *)
Inductive BinaryOperator := Plus | Minus | Mult | Div.

(** Modelled from the spec: the expression nodes of package [parser] (the
    interface [parser.Expr] and its implementations are not part of this
    file), with the variants of the spec's data model. [FuncExpr],
    [aggregateFuncHolder] and [IndexedVar] carry the names the source
    uses for [FunctionCall], [AggregateMarker] and [OrdinalReference];
    the [Func] of a [FuncExpr] is the string
    [f.Func.FunctionReference.String()]. *)
#[warnings="-register-all"] Inductive Expr :=
| Literal (value : Z)
| ColumnRef (index : Z)
| FuncExpr (Func : string) (Typ : funcType) (Exprs : list Expr)
| BinaryOp (Operator : BinaryOperator) (Left Right : Expr)
| aggregateFuncHolder (expr : Expr)
| IndexedVar (Idx : Z).

(** Modelled from the spec: [parser.NewOrdinalReference], which builds the
    [OrdinalReference(position)] node. *)
Definition NewOrdinalReference (r : Z) : Expr := IndexedVar r.

(** The interface [parser.Visitor]. A visitor is a pointer to a mutable
    struct in the source; here each method takes the visitor's state and
    returns the new one next to its results. *)
Class Visitor (V : Type) := {
  VisitPre : V → Expr → V * (bool * Expr);
  VisitPost : V → Expr → V * Expr
}.

Section walk.
Context {V : Type}.
Variable WalkExpr : V → Expr → option (V * Expr).

(** The children of a node are walked from left to right, the visitor's
    state passing from one to the next. *)
Fixpoint walk_exprs (v : V) (exprs : list Expr) : option (V * list Expr) :=
  match exprs with
  | [] => Some (v, [])
  | e :: exprs =>
      '(v, e') ← WalkExpr v e;
      '(v, exprs') ← walk_exprs v exprs;
      Some (v, e' :: exprs')
  end.

(** Modelled from the spec: the method [Walk] of each node, which walks
    the node's children and rebuilds the node around the results. An
    [aggregateFuncHolder] has no children to walk: its inner expression
    is not explored. *)
Definition Walk (v : V) (expr : Expr) : option (V * Expr) :=
  match expr with
  | FuncExpr f t exprs =>
      '(v, exprs') ← walk_exprs v exprs;
      Some (v, FuncExpr f t exprs')
  | BinaryOp op l r =>
      '(v, l') ← WalkExpr v l;
      '(v, r') ← WalkExpr v r;
      Some (v, BinaryOp op l' r')
  | Literal _ | ColumnRef _ | aggregateFuncHolder _ | IndexedVar _ =>
      Some (v, expr)
  end.
End walk.

(** Modelled from the spec: [parser.WalkExpr]. [VisitPre] is called on the
    node; when it asks to recurse, the children are walked and [VisitPost]
    is called on the rebuilt node. The recursion of the source is bounded
    here by [fuel], the depth it may reach; [None] is out of fuel. *)
Fixpoint WalkExpr_fuel `{Visitor V} (fuel : nat) (v : V) (expr : Expr)
  : option (V * Expr) :=
  match fuel with
  | O => None
  | S fuel =>
      let '(v, (recurse, newExpr)) := VisitPre v expr in
      if recurse : bool then
        '(v, newExpr) ← Walk (WalkExpr_fuel fuel) v newExpr;
        Some (VisitPost v newExpr)
      else Some (v, newExpr)
  end.

(** The height of a tree bounds the depth of its walk. *)
Fixpoint height (e : Expr) : nat :=
  match e with
  | FuncExpr _ _ exprs => S (foldr (λ e n, height e `max` n)%nat O exprs)
  | BinaryOp _ l r => S (height l `max` height r)%nat
  | aggregateFuncHolder e => S (height e)
  | Literal _ | ColumnRef _ | IndexedVar _ => O
  end.

Definition WalkExpr `{Visitor V} (v : V) (expr : Expr) : option (V * Expr) :=
  WalkExpr_fuel (S (height expr)) v expr.

(** [parser.WalkExprConst]: the walk, its result dropped; the visitor
    keeps what it gathered. *)
Definition WalkExprConst `{Visitor V} (v : V) (expr : Expr) : option V :=
  fst <$> WalkExpr v expr.

End parser.

(** ** Package [distsqlrun]: the aggregator's specification *)

Module distsqlrun.

(** [AggregatorSpec_Func] is an [int32] enumeration. *)
Definition AggregatorSpec_Func : Type := Z.

Record AggregatorSpec_Expr := {
  Func : AggregatorSpec_Func;
  Distinct : bool;
  ColIdx : Z
}.

Definition set_ColIdx (e : AggregatorSpec_Expr) (i : Z) : AggregatorSpec_Expr :=
  {| Func := Func e; Distinct := Distinct e; ColIdx := i |}.

End distsqlrun.

Import go_strings parser distsqlrun.

(** ** Package [sql]: the two visitors *)

(** Go's [m[k]] on a map with integer values: the value stored under [k],
    or the zero value when [k] is not a key. *)
Definition map_index (m : gmap string Z) (k : string) : Z := default 0 (m !! k).

Section distsql_aggregator_visitors.

(** The table [distsqlrun.AggregatorSpec_Func_value], from the upper-case
    name of an aggregate function to its number, and the constant
    [distsqlrun.AggregatorSpec_IDENT]: both are declared in generated code
    that is not part of this file, so they are left open here. *)
Variable AggregatorSpec_Func_value : gmap string Z.
Variable AggregatorSpec_IDENT : AggregatorSpec_Func.

Record aggExprVisitor := { exprs : list AggregatorSpec_Expr }.

(** [aggExprVisitor.VisitPre]. *)
Definition aggExprVisitor_VisitPre (v : aggExprVisitor) (expr : Expr)
  : aggExprVisitor * (bool * Expr) :=
  match expr with
  | aggregateFuncHolder fholder_expr =>
      match fholder_expr with
      | FuncExpr f_Func f_Type _ =>
          let aggexpr :=
            {| Func := map_index AggregatorSpec_Func_value (ToUpper f_Func);
               Distinct := funcType_eqb f_Type DistinctFuncType;
               ColIdx := 0 |} in
          ({| exprs := exprs v ++ [aggexpr] |}, (false, expr))
      | _ =>
          let aggexpr :=
            {| Func := AggregatorSpec_IDENT; Distinct := false; ColIdx := 0 |} in
          ({| exprs := exprs v ++ [aggexpr] |}, (false, expr))
      end
  | _ => (v, (true, expr))
  end.

(** [aggExprVisitor.VisitPost]. *)
Definition aggExprVisitor_VisitPost (v : aggExprVisitor) (expr : Expr)
  : aggExprVisitor * Expr := (v, expr).

#[export] Instance aggExprVisitor_Visitor : Visitor aggExprVisitor :=
  {| VisitPre := aggExprVisitor_VisitPre; VisitPost := aggExprVisitor_VisitPost |}.

(** [aggExprVisitor.extract] has a value receiver: the walk fills a copy of
    [v], whose [exprs] are returned; the caller's [v] stays as it was. *)
Definition aggExprVisitor_extract (v : aggExprVisitor) (typedExpr : Expr)
  : option (list AggregatorSpec_Expr) :=
  v ← WalkExprConst v typedExpr; Some (exprs v).

(** The first loop of [extractAggExprs]. *)
Fixpoint extractAggExprs_render (v : aggExprVisitor) (render : list Expr)
    (aggExprs : list AggregatorSpec_Expr) : option (list AggregatorSpec_Expr) :=
  match render with
  | [] => Some aggExprs
  | expr :: render =>
      found ← aggExprVisitor_extract v expr;
      extractAggExprs_render v render (aggExprs ++ found)
  end.

(** The second loop of [extractAggExprs]: [aggExprs[i].ColIdx = uint32(i)]. *)
Definition assign_ColIdx (aggExprs : list AggregatorSpec_Expr)
  : list AggregatorSpec_Expr :=
  imap (λ i e, set_ColIdx e (uint32 (Z.of_nat i))) aggExprs.

(** [distSQLPlanner.extractAggExprs]. *)
Definition extractAggExprs (render : list Expr)
  : option (list AggregatorSpec_Expr) :=
  let v := {| exprs := [] |} in
  aggExprs ← extractAggExprs_render v render [];
  Some (assign_ColIdx aggExprs).

Record postAggExprVisitor := { count : Z }.

(** [postAggExprVisitor.VisitPre]. *)
Definition postAggExprVisitor_VisitPre (v : postAggExprVisitor) (expr : Expr)
  : postAggExprVisitor * (bool * Expr) := (v, (true, expr)).

(** [postAggExprVisitor.VisitPost]. *)
Definition postAggExprVisitor_VisitPost (v : postAggExprVisitor) (expr : Expr)
  : postAggExprVisitor * Expr :=
  match expr with
  | aggregateFuncHolder _ =>
      let newExpr := NewOrdinalReference (count v) in
      ({| count := int_wrap (count v + 1) |}, newExpr)
  | _ => (v, expr)
  end.

#[export] Instance postAggExprVisitor_Visitor : Visitor postAggExprVisitor :=
  {| VisitPre := postAggExprVisitor_VisitPre;
     VisitPost := postAggExprVisitor_VisitPost |}.

(** [postAggExprVisitor.extract] has a pointer receiver: the counter of [v]
    goes on from one call to the next. *)
Definition postAggExprVisitor_extract (v : postAggExprVisitor) (typedExpr : Expr)
  : option (postAggExprVisitor * Expr) := WalkExpr v typedExpr.

(** The type assertion of [result] to a pointer to [parser.IndexedVar]. *)
Definition is_IndexedVar (e : Expr) : bool :=
  match e with IndexedVar _ => true | _ => false end.

(** The loop of [extractPostAggrExprs]. *)
Fixpoint extractPostAggrExprs_render (v : postAggExprVisitor) (render : list Expr)
    (evalExprs : list Expr) (needEval : bool) : option (list Expr * bool) :=
  match render with
  | [] => Some (evalExprs, needEval)
  | expr :: render =>
      '(v, result) ← postAggExprVisitor_extract v expr;
      let needEval := if is_IndexedVar result then needEval else true in
      extractPostAggrExprs_render v render (evalExprs ++ [result]) needEval
  end.

(** [distSQLPlanner.extractPostAggrExprs]. *)
Definition extractPostAggrExprs (render : list Expr) : option (list Expr * bool) :=
  let v := {| count := 0 |} in
  extractPostAggrExprs_render v render [] false.

End distsql_aggregator_visitors.

(** ** Markers, their places and their discovery order *)

(** The children of a node that a walk visits, from left to right. The inner
    expression of an [aggregateFuncHolder] is not one of them. *)
Definition children (e : Expr) : list Expr :=
  match e with
  | FuncExpr _ _ exprs => exprs
  | BinaryOp _ l r => [l; r]
  | Literal _ | ColumnRef _ | aggregateFuncHolder _ | IndexedVar _ => []
  end.

(** The node reached from [e] by the path [p]: each step of a path is the
    number of a child. *)
Fixpoint node_at (e : Expr) (p : list nat) : option Expr :=
  match p with
  | [] => Some e
  | j :: p => children e !! j ≫= λ c, node_at c p
  end.

(** For a render list the first step of a path is the number of the render
    expression. *)
Definition render_node_at (render : list Expr) (p : list nat) : option Expr :=
  match p with
  | [] => None
  | j :: p => render !! j ≫= λ e, node_at e p
  end.

Definition below (j : nat) (pm : list nat * Expr) : list nat * Expr :=
  (j :: pm.1, pm.2).

Section child_markers.
Context {A : Type} (f : A → list (list nat * Expr)).

(** The places found in the elements of [es], the first of which has the
    number [j], from left to right. *)
Fixpoint child_markers (j : nat) (es : list A) : list (list nat * Expr) :=
  match es with
  | [] => []
  | e :: es => (below j <$> f e) ++ child_markers (S j) es
  end.
End child_markers.

(** The markers of [e] that no other marker encloses, each with its place,
    in the order of discovery: left to right, a node before the nodes under
    it. A marker is a leaf of this enumeration. *)
Fixpoint markers (e : Expr) : list (list nat * Expr) :=
  match e with
  | aggregateFuncHolder _ => [([], e)]
  | FuncExpr _ _ exprs => child_markers markers 0 exprs
  | BinaryOp _ l r => (below 0 <$> markers l) ++ (below 1 <$> markers r)
  | Literal _ | ColumnRef _ | IndexedVar _ => []
  end.

Definition render_markers (render : list Expr) : list (list nat * Expr) :=
  child_markers markers 0 render.

(** The number of all the markers in a tree, those inside a marker too. *)
Fixpoint count_markers (e : Expr) : Z :=
  match e with
  | aggregateFuncHolder e => 1 + count_markers e
  | FuncExpr _ _ exprs => foldr (λ e n, count_markers e + n) 0 exprs
  | BinaryOp _ l r => count_markers l + count_markers r
  | Literal _ | ColumnRef _ | IndexedVar _ => 0
  end.

Definition total_markers (render : list Expr) : Z :=
  foldr (λ e n, count_markers e + n) 0 render.

(** Aggregates do not nest: no marker has a marker inside it. *)
Fixpoint no_nested_markers (e : Expr) : bool :=
  match e with
  | aggregateFuncHolder e => count_markers e =? 0
  | FuncExpr _ _ exprs => forallb no_nested_markers exprs
  | BinaryOp _ l r => no_nested_markers l && no_nested_markers r
  | Literal _ | ColumnRef _ | IndexedVar _ => true
  end.

Definition is_holder (e : Expr) : bool :=
  match e with aggregateFuncHolder _ => true | _ => false end.

(** A tree with [2 ^ n] markers: [n] levels of additions over one marker. *)
Fixpoint doubled (n : nat) : Expr :=
  match n with
  | O => aggregateFuncHolder (ColumnRef 0)
  | S n => BinaryOp Plus (doubled n) (doubled n)
  end.

Section entries.
Variable AggregatorSpec_Func_value : gmap string Z.
Variable AggregatorSpec_IDENT : AggregatorSpec_Func.

(** What [aggExprVisitor.VisitPre] appends to the visitor when it is called
    on the node [e]. *)
Definition visited_entries (e : Expr) : list AggregatorSpec_Expr :=
  exprs (aggExprVisitor_VisitPre AggregatorSpec_Func_value AggregatorSpec_IDENT
           {| exprs := [] |} e).1.

(** The entries of the markers of [e], in discovery order. *)
Definition found (ms : list (list nat * Expr)) : list AggregatorSpec_Expr :=
  ms.*2 ≫= visited_entries.
End entries.

(** ** Statements *)

(** What a walk of [postAggExprVisitor] does on [e], for a walking function
    [W]: it returns; the counter has advanced by the number of markers of
    [e]; in the result the i-th marker of [e] has given way to the ordinal
    reference numbered by the counter plus [i]; and the result is an ordinal
    reference when [e] was a marker or an ordinal reference, only then. *)
Definition post_walk_of
    (W : postAggExprVisitor → Expr → option (postAggExprVisitor * Expr))
    (e : Expr) : Prop :=
  ∀ v, int_min ≤ count v ≤ int_max →
    ∃ e', W v e
          = Some ({| count := int_wrap (count v + Z.of_nat (length (markers e))) |}, e')
      ∧ (∀ i p m, markers e !! i = Some (p, m) →
           node_at e' p = Some (IndexedVar (int_wrap (count v + Z.of_nat i))))
      ∧ is_IndexedVar e' = is_IndexedVar e || is_holder e.

(** A table for the examples, with two aggregate functions in it. *)
Definition example_Func_value : gmap string Z :=
  {[ "COUNT"%string := 5; "SUM"%string := 10 ]}.

(** The render list of [SELECT k, COUNT(v) + SUM(DISTINCT w)], the grouping
    column [k] passed through. *)
Definition example_render : list Expr :=
  [aggregateFuncHolder (ColumnRef 0);
   BinaryOp Plus
     (aggregateFuncHolder (FuncExpr "count" NoFuncType [ColumnRef 1]))
     (aggregateFuncHolder (FuncExpr "SUM" DistinctFuncType [ColumnRef 2]))].

(** The claim of C1 for one render list: [extractAggExprs] returns as many
    entries as the list has markers, their [ColIdx] read in list order are
    [0, 1, ..., k-1], and the i-th entry is the one made of the i-th marker
    in discovery order. *)
Definition ColIdx_in_sequence (tbl : gmap string Z) (ident : AggregatorSpec_Func)
    (render : list Expr) : Prop :=
  ∃ aggExprs,
    extractAggExprs tbl ident render = Some aggExprs
    ∧ Z.of_nat (length aggExprs) = total_markers render
    ∧ ColIdx <$> aggExprs = seqZ 0 (total_markers render)
    ∧ ∀ i p m, render_markers render !! i = Some (p, m) →
        ∃ s, visited_entries tbl ident m = [s]
          ∧ aggExprs !! i = Some (set_ColIdx s (Z.of_nat i)).

(** The claim of C2 for one render list: both passes return, and for every
    [i] below the number of entries there is a marker in the render list, the
    i-th in discovery order, of which the extractor made its i-th entry, the
    one with [ColIdx] [i], and in whose place the rewriter put the ordinal
    reference carrying [i]. *)
Definition cross_consistent (tbl : gmap string Z) (ident : AggregatorSpec_Func)
    (render : list Expr) : Prop :=
  ∃ aggExprs evalExprs needEval,
    extractAggExprs tbl ident render = Some aggExprs
    ∧ extractPostAggrExprs render = Some (evalExprs, needEval)
    ∧ Z.of_nat (length aggExprs) = total_markers render
    ∧ ∀ i, (i < length aggExprs)%nat →
        ∃ p m s,
          render_markers render !! i = Some (p, m)
          ∧ render_node_at render p = Some m
          ∧ visited_entries tbl ident m = [s]
          ∧ aggExprs !! i = Some (set_ColIdx s (Z.of_nat i))
          ∧ render_node_at evalExprs p = Some (IndexedVar (Z.of_nat i)).

(** A rewritten expression that is an ordinal reference and nothing more. *)
Definition bare_OrdinalReference (e : Expr) : Prop := ∃ Idx, e = IndexedVar Idx.

(** The extraction of each of the expressions [cs], from left to right, the
    entries gathered so far passing from one to the next. *)
Definition extract_each (tbl : gmap string Z) (ident : AggregatorSpec_Func)
    (start : list AggregatorSpec_Expr) (cs : list Expr)
  : option (list AggregatorSpec_Expr) :=
  foldl (λ gathered c,
           es ← gathered; aggExprVisitor_extract tbl ident {| exprs := es |} c)
        (Some start) cs.


(** * The generator and the random strings of [random_test.go] *)

(** ** More machine integers *)

(** Conversions to Go's [uint8] (and [byte]) and [uint64] keep the low 8 and
    64 bits; [uint] is 64 bits wide on the platforms the program is built
    for. *)
Definition uint8 (z : Z) : Z := z mod 2 ^ 8.
Definition uint64 (z : Z) : Z := z mod 2 ^ 64.

(** ** Runs that may panic *)

(** The outcome of a run: a result, a run-time panic (an index out of
    range), or the end of the fuel that bounds a loop here. *)
Inductive run (A : Type) : Type :=
| Ret (a : A)
| Panic
| NoFuel.
Arguments Ret {A} a.
Arguments Panic {A}.
Arguments NoFuel {A}.

#[export] Instance run_ret : MRet run := λ A a, Ret a.
#[export] Instance run_bind : MBind run := λ A B f m,
  match m with
  | Ret a => f a
  | Panic => Panic
  | NoFuel => NoFuel
  end.

(** [buf[i] = b] and [buf[i]], with Go's bounds check. *)
Definition store (buf : list Z) (i : nat) (b : Z) : run (list Z) :=
  if decide (i < length buf)%nat then Ret (<[i := b]> buf) else Panic.

Definition index (buf : list Z) (i : nat) : run Z :=
  match buf !! i with
  | Some b => Ret b
  | None => Panic
  end.

(** ** Package [math/bits] *)

Module bits.

(** [bits.RotateLeft32] of Go's standard library:
    [s := uint(k) & (n - 1); return x<<s | x>>(n-s)] with [n = 32]. It
    rotates the 32-bit [x] left by [k mod 32] bits; a negative [k] rotates
    right. *)
Definition RotateLeft32 (x k : Z) : Z :=
  let s := Z.land (uint64 k) (32 - 1) in
  Z.lor (uint32 (Z.shiftl x s)) (Z.shiftr x (32 - s)).

End bits.

(** ** Package [tpcc]: the generator and the random strings of
    [random_test.go] *)

Module tpcc.

Record pcg32 := { state : Z }.

(** [pcg32.Uint32]. *)
Definition pcg32_Uint32 (pcg : pcg32) : Z * pcg32 :=
  let oldstate := state pcg in
  let pcg := {| state := uint64 (oldstate * 6364136223846793005 + 1) |} in
  let xorshifted :=
    uint32 (Z.shiftr (Z.lxor (Z.shiftr oldstate 18) oldstate) 27) in
  (bits.RotateLeft32 xorshifted (int_wrap (- int_wrap (Z.shiftr oldstate 59))), pcg).

(** [pcg32.Seed]. *)
Definition pcg32_Seed (pcg : pcg32) (seed : Z) : pcg32 :=
  let pcg := {| state := 0 |} in
  let '(_, pcg) := pcg32_Uint32 pcg in
  let pcg := {| state := uint64 (state pcg + seed) |} in
  let '(_, pcg) := pcg32_Uint32 pcg in
  pcg.

(** [newPCG32]. *)
Definition newPCG32 (seed : Z) : pcg32 :=
  let pcg := {| state := 0 |} in
  pcg32_Seed pcg seed.

(** [uint8n]. *)
Definition uint8n (r n : Z) : Z := Z.shiftr (uint32 (uint32 r * n)) 8.

(** [uint16n]. *)
Definition uint16n (r n : Z) : Z := Z.shiftr (uint64 (uint64 r * n)) 16.

(** The interface [rand.Source] of [golang.org/x/exp/rand], as far as the
    file uses it: the method [Uint64], which gives the next value and moves
    the source on. *)
Class Source (R : Type) := { Uint64 : R → Z * R }.

Section randStringLetters2.
Context `{Source R}.

(** The first loop of [randStringLetters2]. [buf] is the window that the
    slice [buf] is at that time; [before] holds the bytes that
    [buf = buf[8:]] has left behind. *)
Fixpoint randStringLetters2_chunks (fuel : nat) (rng : R) (before buf : list Z)
  : run (R * list Z * list Z) :=
  match fuel with
  | O => NoFuel
  | S fuel =>
      if decide (8 ≤ length buf)%nat then
        let '(r, rng) := Uint64 rng in
        let r := uint64 r in
        _ ← index buf 8;
        buf ← store buf 0 (uint8 (65 + uint8 (uint8n (uint8 r) 26)));
        buf ← store buf 1 (uint8 (65 + uint8 (uint8n (uint8 (Z.shiftr r 8)) 26)));
        buf ← store buf 2 (uint8 (65 + uint8 (uint8n (uint8 (Z.shiftr r 16)) 26)));
        buf ← store buf 3 (uint8 (65 + uint8 (uint8n (uint8 (Z.shiftr r 24)) 26)));
        buf ← store buf 4 (uint8 (65 + uint8 (uint8n (uint8 (Z.shiftr r 32)) 26)));
        buf ← store buf 5 (uint8 (65 + uint8 (uint8n (uint8 (Z.shiftr r 40)) 26)));
        buf ← store buf 6 (uint8 (65 + uint8 (uint8n (uint8 (Z.shiftr r 48)) 26)));
        buf ← store buf 7 (uint8 (65 + uint8 (uint8n (uint8 (Z.shiftr r 56)) 26)));
        randStringLetters2_chunks fuel rng (before ++ take 8 buf) (drop 8 buf)
      else Ret (rng, before, buf)
  end.

(** The second loop of [randStringLetters2], with [todo] rounds to go.
    Nothing in it counts [n] down. *)
Fixpoint randStringLetters2_rest (todo i : nat) (rng : R) (r n : Z) (buf : list Z)
  : run (R * list Z) :=
  match todo with
  | O => Ret (rng, buf)
  | S todo =>
      let '(rng, r, n) :=
        if decide (n = 0)
        then let '(r, rng) := Uint64 rng in (rng, uint64 r, 8)
        else (rng, r, n) in
      buf ← store buf i (uint8 (65 + uint8 (uint8n (uint8 r) 26)));
      let r := Z.shiftr r 8 in
      randStringLetters2_rest todo (S i) rng r n buf
  end.

(** [randStringLetters2]: the generator as it is left and the bytes of the
    buffer the caller passed, or a panic. *)
Definition randStringLetters2 (rng : R) (buf : list Z) : run (R * list Z) :=
  '(rng, before, buf) ← randStringLetters2_chunks (S (length buf)) rng [] buf;
  if decide (0 < length buf)%nat then
    '(rng, buf) ← randStringLetters2_rest (length buf) 0 rng 0 0 buf;
    Ret (rng, before ++ buf)
  else Ret (rng, before ++ buf).

End randStringLetters2.

(** The first loop of [randStringLetters3]. *)
Fixpoint randStringLetters3_chunks (fuel : nat) (rng : pcg32) (before buf : list Z)
  : run (pcg32 * list Z * list Z) :=
  match fuel with
  | O => NoFuel
  | S fuel =>
      if decide (4 ≤ length buf)%nat then
        let '(r, rng) := pcg32_Uint32 rng in
        buf ← store buf 0 (uint8 (65 + uint8 (uint8n (uint8 r) 26)));
        buf ← store buf 1 (uint8 (65 + uint8 (uint8n (uint8 (Z.shiftr r 8)) 26)));
        buf ← store buf 2 (uint8 (65 + uint8 (uint8n (uint8 (Z.shiftr r 16)) 26)));
        buf ← store buf 3 (uint8 (65 + uint8 (uint8n (uint8 (Z.shiftr r 24)) 26)));
        randStringLetters3_chunks fuel rng (before ++ take 4 buf) (drop 4 buf)
      else Ret (rng, before, buf)
  end.

(** The second loop of [randStringLetters3], with [todo] rounds to go. *)
Fixpoint randStringLetters3_rest (todo i : nat) (r : Z) (buf : list Z)
  : run (list Z) :=
  match todo with
  | O => Ret buf
  | S todo =>
      buf ← store buf i (uint8 (65 + uint8 (uint8n (uint8 r) 26)));
      let r := Z.shiftr r 8 in
      randStringLetters3_rest todo (S i) r buf
  end.

(** [randStringLetters3]. *)
Definition randStringLetters3 (rng : pcg32) (buf : list Z) : run (pcg32 * list Z) :=
  '(rng, before, buf) ← randStringLetters3_chunks (S (length buf)) rng [] buf;
  if decide (0 < length buf)%nat then
    let '(r, rng) := pcg32_Uint32 rng in
    buf ← randStringLetters3_rest (length buf) 0 r buf;
    Ret (rng, before ++ buf)
  else Ret (rng, before ++ buf).

(** The loop of [randStringLetters4], with [todo] rounds to go. *)
Fixpoint randStringLetters4_loop (todo i : nat) (rng : pcg32) (r n : Z)
    (buf : list Z) : run (pcg32 * list Z) :=
  match todo with
  | O => Ret (rng, buf)
  | S todo =>
      let '(rng, r, n) :=
        if decide (n = 0)
        then let '(r, rng) := pcg32_Uint32 rng in (rng, r, 6)
        else (rng, r, n) in
      let old := r in
      let r := r / 26 in
      buf ← store buf i (uint8 (65 + uint8 (uint32 (old - r))));
      let n := int_wrap (n - 1) in
      randStringLetters4_loop todo (S i) rng r n buf
  end.

(** [randStringLetters4]. *)
Definition randStringLetters4 (rng : pcg32) (buf : list Z) : run (pcg32 * list Z) :=
  randStringLetters4_loop (length buf) 0 rng 0 0 buf.

End tpcc.

(** ** The generator's steps and the letters *)

(** The generator after one call of [Uint32], and the value of that call. *)
Definition pcg32_next (pcg : tpcc.pcg32) : tpcc.pcg32 := (tpcc.pcg32_Uint32 pcg).2.
Definition pcg32_value (pcg : tpcc.pcg32) : Z := (tpcc.pcg32_Uint32 pcg).1.

(** The byte that [randStringLetters2] and [randStringLetters3] write for
    the value [x]: ['A' + byte(uint8n(uint8(x), 26))]. *)
Definition letter (x : Z) : Z := uint8 (65 + uint8 (tpcc.uint8n (uint8 x) 26)).

(** An upper-case letter of ASCII. *)
Definition is_letter (b : Z) : Prop := 65 ≤ b ≤ 90.

Arguments tpcc.pcg32_Uint32 : simpl never.

(** A source after one call of [Uint64], and the 64 bits of that call. *)
Definition source_next `{tpcc.Source R} (rng : R) : R := (tpcc.Uint64 rng).2.
Definition source_value `{tpcc.Source R} (rng : R) : Z := uint64 (tpcc.Uint64 rng).1.

(** The byte that [randStringLetters4] writes in the round [k] of the six
    that share the value [w]: ['A' + byte(old - r)] with [old = w / 26^k]
    and [r = old / 26]. *)
Definition byte4 (w : Z) (k : nat) : Z :=
  uint8 (65 + uint8 (uint32 (w / 26 ^ Z.of_nat k - w / 26 ^ Z.of_nat k / 26))).

(** A source for the examples: it counts, and gives a multiple of its count. *)
Definition example_Source : tpcc.Source Z :=
  {| tpcc.Uint64 := λ s, (s * 81985529216486895 + 77, s + 1) |}.

(** * Properties *)

(** ** Induction over expressions *)

Lemma Expr_ind' (P : Expr → Prop) :
  (∀ value, P (Literal value)) →
  (∀ index, P (ColumnRef index)) →
  (∀ f t exprs, Forall P exprs → P (FuncExpr f t exprs)) →
  (∀ op l r, P l → P r → P (BinaryOp op l r)) →
  (∀ e, P e → P (aggregateFuncHolder e)) →
  (∀ Idx, P (IndexedVar Idx)) →
  ∀ e, P e.
Proof.
  intros HL HC HF HB HH HI. fix IH 1.
  intros [value | index | f t exprs | op l r | e | Idx].
  - apply HL.
  - apply HC.
  - apply HF. induction exprs as [| e exprs IHexprs]; constructor.
    + apply IH.
    + apply IHexprs.
  - apply HB; apply IH.
  - apply HH, IH.
  - apply HI.
Qed.

(** ** Machine integers *)

Lemma uint32_small z : 0 ≤ z < 2 ^ 32 → uint32 z = z.
Proof. intros Hz. unfold uint32. by apply Z.mod_small. Qed.

Lemma int_wrap_small z : int_min ≤ z ≤ int_max → int_wrap z = z.
Proof.
  unfold int_min, int_max, int_wrap. intros Hz.
  rewrite Z.mod_small; lia.
Qed.

Lemma int_wrap_add_l a b : int_wrap (int_wrap a + b) = int_wrap (a + b).
Proof.
  unfold int_wrap. f_equal.
  replace ((a + 2 ^ 63) mod 2 ^ 64 - 2 ^ 63 + b + 2 ^ 63)
    with ((a + 2 ^ 63) mod 2 ^ 64 + b) by lia.
  rewrite Zplus_mod_idemp_l. f_equal. lia.
Qed.

Lemma int_wrap_range z : int_min ≤ int_wrap z ≤ int_max.
Proof.
  unfold int_min, int_max, int_wrap.
  pose proof (Z.mod_pos_bound (z + 2 ^ 63) (2 ^ 64)). lia.
Qed.

(** ** Fuel *)

Section fuel.
Context `{Visitor V}.

Lemma walk_exprs_mono (W W' : V → Expr → option (V * Expr)) :
  (∀ v e r, W v e = Some r → W' v e = Some r) →
  ∀ es v r, walk_exprs W v es = Some r → walk_exprs W' v es = Some r.
Proof.
  intros HW. induction es as [| e es IH]; intros v r; simpl; [done |].
  destruct (W v e) as [[v1 e1] |] eqn:He; [| done].
  rewrite (HW _ _ _ He). simpl.
  destruct (walk_exprs W v1 es) as [[v2 es2] |] eqn:Hes; [| done].
  by rewrite (IH _ _ Hes).
Qed.

Lemma Walk_mono (W W' : V → Expr → option (V * Expr)) :
  (∀ v e r, W v e = Some r → W' v e = Some r) →
  ∀ v e r, Walk W v e = Some r → Walk W' v e = Some r.
Proof.
  intros HW v e r. destruct e as [| | f t es | op l r0 | |]; simpl; try done.
  - destruct (walk_exprs W v es) as [[v1 es1] |] eqn:Hes; [| done].
    by rewrite (walk_exprs_mono W W' HW _ _ _ Hes).
  - destruct (W v l) as [[v1 l1] |] eqn:Hl; [| done].
    rewrite (HW _ _ _ Hl). simpl.
    destruct (W v1 r0) as [[v2 r1] |] eqn:Hr; [| done].
    by rewrite (HW _ _ _ Hr).
Qed.

(** A walk that has returned returns the same with more fuel. *)
Lemma WalkExpr_fuel_mono fuel : ∀ fuel' v e r,
  (fuel ≤ fuel')%nat →
  WalkExpr_fuel fuel v e = Some r → WalkExpr_fuel fuel' v e = Some r.
Proof.
  induction fuel as [| fuel IH]; intros fuel' v e r Hle; [done |].
  destruct fuel' as [| fuel']; [lia |]. simpl.
  destruct (VisitPre v e) as [v1 [[] e1]]; [| done].
  destruct (Walk (WalkExpr_fuel fuel) v1 e1) as [[v2 e2] |] eqn:Hw; [| done].
  assert (Hmono : ∀ v e r, WalkExpr_fuel fuel v e = Some r →
                           WalkExpr_fuel fuel' v e = Some r).
  { intros ???. apply IH. lia. }
  by rewrite (Walk_mono _ _ Hmono _ _ _ Hw).
Qed.

End fuel.

(** ** The enumeration of markers *)

Lemma child_markers_app {A} (f : A → list (list nat * Expr)) j es1 es2 :
  child_markers f j (es1 ++ es2)
  = child_markers f j es1 ++ child_markers f (length es1 + j) es2.
Proof.
  revert j. induction es1 as [| e es1 IH]; intros j; simpl; [done |].
  rewrite IH, <- app_assoc. do 3 f_equal. lia.
Qed.

Lemma found_nil tbl ident : found tbl ident [] = [].
Proof. done. Qed.

Lemma found_app tbl ident ms1 ms2 :
  found tbl ident (ms1 ++ ms2) = found tbl ident ms1 ++ found tbl ident ms2.
Proof. unfold found. by rewrite fmap_app, bind_app. Qed.

Lemma found_below tbl ident j ms :
  found tbl ident (below j <$> ms) = found tbl ident ms.
Proof. unfold found. f_equal. rewrite <- list_fmap_compose. done. Qed.

Lemma found_child_markers tbl ident j es :
  found tbl ident (child_markers markers j es)
  = es ≫= λ e, found tbl ident (markers e).
Proof.
  revert j. induction es as [| e es IH]; intros j; simpl; [done |].
  by rewrite found_app, found_below, IH.
Qed.

(** Every marker yields one entry, whatever is inside it. *)
Lemma visited_entries_holder tbl ident h :
  ∃ s, visited_entries tbl ident (aggregateFuncHolder h) = [s].
Proof. destruct h; eexists; reflexivity. Qed.

Lemma visited_entries_other tbl ident e :
  is_holder e = false → visited_entries tbl ident e = [].
Proof. by destruct e. Qed.

Lemma markers_holders e pm : pm ∈ markers e → is_holder pm.2 = true.
Proof.
  revert pm. induction e as [| | f t exprs IH | op l r IHl IHr | e _ |]
    using Expr_ind'; intros pm; simpl; try by intros ?%elem_of_nil.
  - generalize 0%nat. induction IH as [| e exprs He _ IHexprs]; intros j; simpl.
    + by intros ?%elem_of_nil.
    + intros [Hin | Hin]%elem_of_app; [| by eapply IHexprs].
      apply list_elem_of_fmap in Hin as (pm' & -> & Hin). simpl. by apply He.
  - intros [Hin | Hin]%elem_of_app;
      apply list_elem_of_fmap in Hin as (pm' & -> & Hin); simpl; auto.
  - by intros ->%list_elem_of_singleton.
Qed.

Lemma length_found tbl ident ms :
  (∀ pm, pm ∈ ms → is_holder pm.2 = true) →
  length (found tbl ident ms) = length ms.
Proof.
  induction ms as [| [p m] ms IH]; intros Hms; [done |].
  change (found tbl ident ((p, m) :: ms))
    with (visited_entries tbl ident m ++ found tbl ident ms).
  rewrite length_app, IH by (intros; apply Hms; by right).
  assert (Hm : is_holder m = true) by (apply (Hms (p, m)); by left).
  destruct m; try discriminate.
  by destruct (visited_entries_holder tbl ident m) as [s ->].
Qed.

(** ** The walk of [aggExprVisitor] *)

Section aggExprVisitor_walk.
Variable tbl : gmap string Z.
Variable ident : AggregatorSpec_Func.

Local Abbreviation VisitPre_agg := (aggExprVisitor_VisitPre tbl ident).
Local Abbreviation walk_agg := (WalkExpr_fuel (H := aggExprVisitor_Visitor tbl ident)).

Lemma aggExprVisitor_VisitPre_spec v e :
  VisitPre_agg v e
  = ({| exprs := exprs v ++ visited_entries tbl ident e |}, (negb (is_holder e), e)).
Proof.
  destruct v as [es].
  destruct e as [| | | | h |]; simpl; rewrite ?app_nil_r; try done.
  by destruct h.
Qed.

Lemma aggExprVisitor_walk fuel : ∀ e v,
  (height e < fuel)%nat →
  walk_agg fuel v e
  = Some ({| exprs := exprs v ++ found tbl ident (markers e) |}, e).
Proof.
  induction fuel as [| fuel IH]; intros e v Hfuel; [lia |].
  cbn [WalkExpr_fuel VisitPre VisitPost aggExprVisitor_Visitor].
  rewrite aggExprVisitor_VisitPre_spec.
  destruct e as [value | index | f t es | op l r | h | Idx]; simpl in Hfuel |- *.
  - destruct v; by rewrite found_nil, !app_nil_r.
  - destruct v; by rewrite found_nil, !app_nil_r.
  - rewrite visited_entries_other, app_nil_r by done.
    assert (Hes : ∀ j v,
      walk_exprs (walk_agg fuel) v es
      = Some ({| exprs := exprs v ++ found tbl ident (child_markers markers j es) |}, es)).
    { assert (Hh : (foldr (λ e n, height e `max` n) 0 es < fuel)%nat) by lia.
      clear Hfuel. induction es as [| e es IHes]; intros j v'; simpl in Hh |- *.
      - destruct v'; by rewrite found_nil, app_nil_r.
      - rewrite IH by lia. simpl. rewrite (IHes ltac:(lia) (S j)). simpl.
        by rewrite found_app, found_below, app_assoc. }
    replace {| exprs := exprs v |} with v by by destruct v.
    rewrite (Hes 0%nat). done.
  - rewrite visited_entries_other, app_nil_r by done.
    replace {| exprs := exprs v |} with v by by destruct v.
    rewrite IH by lia. simpl. rewrite IH by lia. simpl.
    by rewrite found_app, !found_below, app_assoc.
  - unfold found. simpl. by rewrite app_nil_r.
  - destruct v; by rewrite found_nil, !app_nil_r.
Qed.

(** [aggExprVisitor.extract] returns, and returns the entries of the
    markers of the expression after those [v] came with. *)
Lemma aggExprVisitor_extract_spec v e :
  aggExprVisitor_extract tbl ident v e
  = Some (exprs v ++ found tbl ident (markers e)).
Proof.
  unfold aggExprVisitor_extract, WalkExprConst, WalkExpr.
  rewrite aggExprVisitor_walk by lia. done.
Qed.

Lemma extractAggExprs_render_spec render : ∀ aggExprs,
  extractAggExprs_render tbl ident {| exprs := [] |} render aggExprs
  = Some (aggExprs ++ found tbl ident (render_markers render)).
Proof.
  unfold render_markers. generalize 0%nat.
  induction render as [| e render IH]; intros j aggExprs; simpl.
  - by rewrite found_nil, app_nil_r.
  - rewrite aggExprVisitor_extract_spec. simpl.
    by rewrite (IH (S j)), found_app, found_below, app_assoc.
Qed.

(** [extractAggExprs] returns, and returns the entries of the markers of
    the render list in discovery order, the i-th with [uint32(i)] as its
    [ColIdx]. *)
Lemma extractAggExprs_spec render :
  extractAggExprs tbl ident render
  = Some (assign_ColIdx (found tbl ident (render_markers render))).
Proof.
  unfold extractAggExprs. by rewrite extractAggExprs_render_spec.
Qed.

End aggExprVisitor_walk.

(** ** The walk of [postAggExprVisitor] *)

Lemma height_children e c : c ∈ children e → (height c < height e)%nat.
Proof.
  destruct e as [| | f t es | op l r | |]; simpl; try by intros ?%elem_of_nil.
  - induction es as [| e es IH]; simpl; [by intros ?%elem_of_nil |].
    intros [-> | Hin%IH]%elem_of_cons; lia.
  - intros [-> | [-> | ?%elem_of_nil]%elem_of_cons]%elem_of_cons; [lia | lia | done].
Qed.

Lemma child_markers_lookup {A} (f : A → list (list nat * Expr)) es : ∀ j i p m,
  child_markers f j es !! i = Some (p, m) →
  ∃ j' e p' i', p = (j + j')%nat :: p' ∧ es !! j' = Some e
    ∧ f e !! i' = Some (p', m)
    ∧ i = (length (child_markers f j (take j' es)) + i')%nat.
Proof.
  induction es as [| e es IH]; intros j i p m; simpl; [done |].
  intros [Hl | [Hlen Hr]]%lookup_app_Some.
  - rewrite list_lookup_fmap in Hl.
    destruct (f e !! i) as [[p' m'] |] eqn:Hi; unfold below in Hl; simplify_eq/=.
    exists 0%nat, e, p', i. rewrite Nat.add_0_r. done.
  - apply IH in Hr as (j' & e' & p' & i' & -> & He' & Hi' & Hi).
    exists (S j'), e', p', i'. simpl. rewrite length_app.
    repeat split; [f_equal; lia | done | done | lia].
Qed.

Lemma markers_unfold e :
  is_holder e = false → markers e = child_markers markers 0 (children e).
Proof. destruct e; simpl; rewrite ?app_nil_r; done. Qed.

(** Each place of the enumeration is the place of a marker in the tree. *)
Lemma markers_node_at e : ∀ i p m,
  markers e !! i = Some (p, m) → node_at e p = Some m.
Proof.
  induction e as [| | f t es IH | op l r IHl IHr | e _ |] using Expr_ind';
    intros i p m; try done.
  - rewrite markers_unfold by done.
    intros (j' & e & p' & i' & -> & He & Hi & _)%child_markers_lookup.
    simpl in *. rewrite He. simpl. eapply Forall_lookup_1 in IH; eauto.
  - rewrite markers_unfold by done.
    intros (j' & e & p' & i' & -> & He & Hi & _)%child_markers_lookup.
    simpl in *. rewrite He. simpl.
    destruct j' as [| [| j']]; simplify_eq/=; eauto.
  - destruct i; [| done]. by intros [= <- <-].
Qed.

Lemma render_markers_node_at render i p m :
  render_markers render !! i = Some (p, m) → render_node_at render p = Some m.
Proof.
  intros (j' & e & p' & i' & -> & He & Hi & _)%child_markers_lookup.
  simpl. rewrite He. simpl. by eapply markers_node_at.
Qed.

Section postAggExprVisitor_walk.

Local Abbreviation walk_post := (WalkExpr_fuel (H := postAggExprVisitor_Visitor)).

Lemma post_walk_exprs W es :
  Forall (post_walk_of W) es →
  ∀ j v, int_min ≤ count v ≤ int_max →
    ∃ es', walk_exprs W v es
           = Some ({| count := int_wrap
                        (count v + Z.of_nat (length (child_markers markers j es))) |},
                   es')
      ∧ (∀ i p m, child_markers markers j es !! i = Some (p, m) →
           ∃ j' p', p = (j + j')%nat :: p'
             ∧ es' !! j' ≫= (λ c, node_at c p')
               = Some (IndexedVar (int_wrap (count v + Z.of_nat i))))
      ∧ Forall2 (λ e e', is_IndexedVar e' = is_IndexedVar e || is_holder e) es es'.
Proof.
  induction 1 as [| e es He _ IH]; intros j v Hv; simpl.
  - exists []. rewrite Z.add_0_r, int_wrap_small by done.
    destruct v. split_and!; [done | done | constructor].
  - destruct (He v Hv) as (e' & -> & Hat & Hvar). simpl.
    destruct (IH (S j) {| count := int_wrap (count v + Z.of_nat (length (markers e))) |})
      as (es' & -> & Hats & Hvars); [apply int_wrap_range |]. simpl.
    exists (e' :: es'). split_and!.
    + rewrite int_wrap_add_l, length_app, length_fmap, Nat2Z.inj_add, Z.add_assoc.
      done.
    + intros i p m [Hl | [Hlen Hr]]%lookup_app_Some.
      * rewrite list_lookup_fmap in Hl.
        destruct (markers e !! i) as [[p' m'] |] eqn:Hi;
          unfold below in Hl; simplify_eq/=.
        exists 0%nat, p'. rewrite Nat.add_0_r. split; [done |]. simpl. eauto.
      * apply Hats in Hr as (j' & p' & -> & Hr).
        exists (S j'), p'. split; [f_equal; lia |].
        simpl in Hr |- *. rewrite Hr, int_wrap_add_l. rewrite length_fmap in *.
        replace (count v + Z.of_nat (length (markers e))
                 + Z.of_nat (i - length (markers e)))
          with (count v + Z.of_nat i) by lia.
        done.
    + by constructor.
Qed.

Lemma postAggExprVisitor_walk fuel : ∀ e,
  (height e < fuel)%nat → post_walk_of (walk_post fuel) e.
Proof.
  induction fuel as [| fuel IH]; intros e Hfuel; [lia |].
  intros v Hv.
  cbn [WalkExpr_fuel VisitPre VisitPost postAggExprVisitor_Visitor
       postAggExprVisitor_VisitPre].
  destruct (decide (is_holder e = true)) as [Hh | Hh%not_true_is_false].
  - destruct e; try discriminate. simpl.
    eexists. split_and!; [done | | done].
    intros [| i] p m; [| done]. intros [= <- <-]. simpl.
    by rewrite Z.add_0_r, int_wrap_small.
  - assert (Hcs : Forall (post_walk_of (walk_post fuel)) (children e)).
    { apply Forall_forall. intros c Hc%height_children. apply IH. lia. }
    destruct (post_walk_exprs _ _ Hcs 0%nat v Hv) as (cs & Hwalk & Hats & Hvars).
    rewrite (markers_unfold e Hh).
    destruct e as [| | f t es | op l r | |]; try discriminate; simpl in *.
    + destruct v. rewrite Z.add_0_r, int_wrap_small by done.
      eexists; split_and!; done.
    + destruct v. rewrite Z.add_0_r, int_wrap_small by done.
      eexists; split_and!; done.
    + rewrite Hwalk. simpl. eexists. split_and!; [done | | done].
      intros i p m (j' & p' & -> & Hat)%Hats. done.
    + destruct (walk_post fuel v l) as [[v1 l'] |]; [| done]. simpl in *.
      destruct (walk_post fuel v1 r) as [[v2 r'] |]; [| done]. simpl in *.
      simplify_eq/=. eexists. split_and!; [done | | done].
      intros i p m (j' & p' & -> & Hat)%Hats. done.
    + destruct v. rewrite Z.add_0_r, int_wrap_small by done.
      eexists; split_and!; done.
Qed.

Lemma postAggExprVisitor_extract_spec e :
  post_walk_of postAggExprVisitor_extract e.
Proof. apply postAggExprVisitor_walk. lia. Qed.

(** The loop of [extractPostAggrExprs] walks the render expressions one
    after the other with the same visitor. *)
Lemma extractPostAggrExprs_render_walk render : ∀ v evalExprs needEval,
  extractPostAggrExprs_render v render evalExprs needEval
  = '(_, results) ← walk_exprs postAggExprVisitor_extract v render;
    Some (evalExprs ++ results,
          needEval || existsb (λ e, negb (is_IndexedVar e)) results).
Proof.
  induction render as [| e render IH]; intros v evalExprs needEval; simpl.
  - by rewrite app_nil_r, orb_false_r.
  - destruct (postAggExprVisitor_extract v e) as [[v1 result] |]; [| done].
    simpl. rewrite IH.
    destruct (walk_exprs postAggExprVisitor_extract v1 render) as [[v2 results] |];
      [| done].
    simpl. rewrite <- app_assoc. simpl. do 2 f_equal.
    destruct (is_IndexedVar result); simpl; [done |].
    by rewrite orb_true_r.
Qed.

End postAggExprVisitor_walk.

(** ** Places and discovery order *)

Lemma child_markers_lookup_2 {A} (f : A → list (list nat * Expr)) es : ∀ j j' e i' p' m,
  es !! j' = Some e → f e !! i' = Some (p', m) →
  child_markers f j es !! (length (child_markers f j (take j' es)) + i')%nat
  = Some ((j + j')%nat :: p', m).
Proof.
  induction es as [| e0 es IH]; intros j j' e i' p' m; [done |].
  destruct j' as [| j']; simpl.
  - intros [= ->] Hi. rewrite Nat.add_0_r, lookup_app_l.
    + by rewrite list_lookup_fmap, Hi.
    + rewrite length_fmap. by eapply lookup_lt_Some.
  - intros He Hi. rewrite length_app, <- Nat.add_assoc, lookup_app_r by lia.
    replace (length (below j <$> f e0)
             + (length (child_markers f (S j) (take j' es)) + i')
             - length (below j <$> f e0))%nat
      with (length (child_markers f (S j) (take j' es)) + i')%nat by lia.
    rewrite (IH (S j) j' e i' p' m He Hi). do 3 f_equal. lia.
Qed.

(** Every marker that a path reaches is in the enumeration, at its place. *)
Lemma node_at_markers p : ∀ e m,
  node_at e p = Some m → is_holder m = true → ∃ i, markers e !! i = Some (p, m).
Proof.
  induction p as [| j p IH]; intros e m; simpl.
  - intros [= ->] Hm. destruct m; try discriminate. by exists 0%nat.
  - destruct (children e !! j) as [c |] eqn:Hc; [| done]. simpl.
    intros Hat Hm. destruct (IH c m Hat Hm) as [i' Hi'].
    rewrite markers_unfold by (by destruct e).
    eexists. by apply (child_markers_lookup_2 markers _ 0%nat j c i' p m).
Qed.

Lemma render_node_at_markers render p m :
  render_node_at render p = Some m → is_holder m = true →
  ∃ i, render_markers render !! i = Some (p, m).
Proof.
  destruct p as [| j p]; [done |]. simpl.
  destruct (render !! j) as [e |] eqn:He; [| done]. simpl.
  intros Hat Hm. destruct (node_at_markers p e m Hat Hm) as [i' Hi'].
  eexists. by apply (child_markers_lookup_2 markers _ 0%nat j e i' p m).
Qed.

Lemma render_markers_holders render pm :
  pm ∈ render_markers render → is_holder pm.2 = true.
Proof.
  intros (i & Hi)%list_elem_of_lookup. destruct pm as [p m].
  apply child_markers_lookup in Hi as (j' & e & p' & i' & -> & He & Hi & _).
  apply (markers_holders e (p', m)). apply list_elem_of_lookup. eauto.
Qed.

Lemma found_lookup tbl ident ms : ∀ i p m,
  (∀ pm, pm ∈ ms → is_holder pm.2 = true) →
  ms !! i = Some (p, m) →
  ∃ s, visited_entries tbl ident m = [s] ∧ found tbl ident ms !! i = Some s.
Proof.
  induction ms as [| [p0 m0] ms IH]; intros i p m Hms; [done |].
  change (found tbl ident ((p0, m0) :: ms))
    with (visited_entries tbl ident m0 ++ found tbl ident ms).
  assert (Hm0 : is_holder m0 = true) by (apply (Hms (p0, m0)); by left).
  destruct m0 as [| | | | h |]; try discriminate.
  destruct (visited_entries_holder tbl ident h) as [s0 Hs0]. rewrite Hs0.
  destruct i as [| i]; simpl.
  - intros [= <- <-]. eauto.
  - apply IH. intros pm Hpm. apply Hms. by right.
Qed.

(** ** The numbering of the entries *)

Lemma assign_ColIdx_lookup l i s :
  l !! i = Some s →
  assign_ColIdx l !! i = Some (set_ColIdx s (uint32 (Z.of_nat i))).
Proof. intros Hs. unfold assign_ColIdx. by rewrite list_lookup_imap, Hs. Qed.

Lemma length_assign_ColIdx l : length (assign_ColIdx l) = length l.
Proof. apply length_imap. Qed.

(** As long as the indices fit in 32 bits the column indices count up from
    zero. *)
Lemma assign_ColIdx_seqZ l :
  Z.of_nat (length l) ≤ 2 ^ 32 →
  ColIdx <$> assign_ColIdx l = seqZ 0 (Z.of_nat (length l)).
Proof.
  intros Hlen. apply list_eq. intros i.
  rewrite list_lookup_fmap. unfold assign_ColIdx. rewrite list_lookup_imap.
  destruct (l !! i) as [s |] eqn:Hs; simpl.
  - apply lookup_lt_Some in Hs. symmetry. apply lookup_seqZ.
    rewrite uint32_small by lia. lia.
  - apply lookup_ge_None in Hs. symmetry. apply lookup_seqZ_ge. lia.
Qed.

(** Past 32 bits they do not. *)
Lemma assign_ColIdx_seqZ_inv l :
  ColIdx <$> assign_ColIdx l = seqZ 0 (Z.of_nat (length l)) →
  Z.of_nat (length l) ≤ 2 ^ 32.
Proof.
  intros Heq. destruct (Z.le_gt_cases (Z.of_nat (length l)) (2 ^ 32)) as [| Hgt];
    [done | exfalso].
  destruct (Z_of_nat_complete (2 ^ 32)) as [n Hn]; [lia |].
  destruct (lookup_lt_is_Some_2 l n) as [s Hs]; [lia |].
  assert (Hi : (ColIdx <$> assign_ColIdx l) !! n = Some (uint32 (Z.of_nat n))).
  { by rewrite list_lookup_fmap, (assign_ColIdx_lookup l n s). }
  rewrite Heq in Hi. apply lookup_seqZ in Hi as [Hi _].
  rewrite <- Hn in Hi. unfold uint32 in Hi. rewrite Z_mod_same_full in Hi. lia.
Qed.

(** ** Counting markers *)

Lemma length_child_markers {A} (f : A → list (list nat * Expr)) es : ∀ j,
  Z.of_nat (length (child_markers f j es))
  = foldr (λ e n, Z.of_nat (length (f e)) + n) 0 es.
Proof.
  induction es as [| e es IH]; intros j; simpl; [done |].
  rewrite length_app, length_fmap, Nat2Z.inj_add, IH. done.
Qed.

(** When aggregates do not nest, the enumeration has all the markers. *)
Lemma length_markers e :
  no_nested_markers e = true → Z.of_nat (length (markers e)) = count_markers e.
Proof.
  induction e as [| | f t es IH | op l r IHl IHr | e _ |] using Expr_ind';
    simpl; try done.
  - rewrite length_child_markers.
    induction IH as [| e es He _ IHes]; simpl; [done |].
    intros [??]%andb_prop. rewrite He, IHes; done.
  - intros [??]%andb_prop.
    rewrite length_app, !length_fmap, Nat2Z.inj_add, IHl, IHr; done.
  - intros ?%Z.eqb_eq. lia.
Qed.

Lemma length_render_markers render :
  forallb no_nested_markers render = true →
  Z.of_nat (length (render_markers render)) = total_markers render.
Proof.
  unfold render_markers, total_markers. rewrite length_child_markers.
  induction render as [| e render IH]; simpl; [done |].
  intros [??]%andb_prop. rewrite length_markers, IH; done.
Qed.

Lemma count_markers_doubled n : count_markers (doubled n) = 2 ^ Z.of_nat n.
Proof.
  induction n as [| n IH]; [done |].
  rewrite Nat2Z.inj_succ, Z.pow_succ_r by lia.
  change (count_markers (doubled (S n)))
    with (count_markers (doubled n) + count_markers (doubled n)). lia.
Qed.

Lemma no_nested_markers_doubled n : no_nested_markers (doubled n) = true.
Proof. induction n as [| n IH]; [done |]. simpl. by rewrite IH. Qed.

(** The render list [doubled n; marker] has [2 ^ n + 1] markers, none of
    them nested. *)
Lemma doubled_render n h :
  count_markers h = 0 →
  forallb no_nested_markers [doubled n; aggregateFuncHolder h] = true
  ∧ total_markers [doubled n; aggregateFuncHolder h] = 2 ^ Z.of_nat n + 1.
Proof.
  intros Hh. split.
  - simpl. rewrite no_nested_markers_doubled, Hh. done.
  - unfold total_markers. simpl. rewrite count_markers_doubled, Hh. lia.
Qed.

(** ** [extractPostAggrExprs] *)

(** [extractPostAggrExprs] returns; each marker of the render list, the i-th
    in discovery order, has given way to the ordinal reference numbered [i]
    (as an [int]); an output is an ordinal reference when the render
    expression was a marker or an ordinal reference; and [needEval] tells
    whether some output is not an ordinal reference. *)
Lemma extractPostAggrExprs_spec render :
  ∃ evalExprs,
    extractPostAggrExprs render
    = Some (evalExprs, existsb (λ e, negb (is_IndexedVar e)) evalExprs)
    ∧ (∀ i p m, render_markers render !! i = Some (p, m) →
         render_node_at evalExprs p = Some (IndexedVar (int_wrap (Z.of_nat i))))
    ∧ Forall2 (λ e e', is_IndexedVar e' = is_IndexedVar e || is_holder e)
        render evalExprs.
Proof.
  unfold extractPostAggrExprs. rewrite extractPostAggrExprs_render_walk.
  destruct (post_walk_exprs postAggExprVisitor_extract render) with
    (j := 0%nat) (v := {| count := 0 |}) as (evalExprs & -> & Hat & Hvar).
  - apply Forall_forall. intros e _. apply postAggExprVisitor_extract_spec.
  - unfold int_min, int_max. simpl. lia.
  - exists evalExprs. split_and!; [done | | done].
    intros i p m (j' & p' & -> & Hi)%Hat. done.
Qed.

(** ** Each marker and its entry *)

(** [extractAggExprs] has, for every marker that a path reaches in the render
    list, the entry [VisitPre] makes of it, at the marker's index in the
    discovery order and with that index, cut to 32 bits, as its [ColIdx]. *)
Lemma extractAggExprs_marker tbl ident render p m :
  render_node_at render p = Some m → is_holder m = true →
  ∃ aggExprs i s,
    extractAggExprs tbl ident render = Some aggExprs
    ∧ render_markers render !! i = Some (p, m)
    ∧ visited_entries tbl ident m = [s]
    ∧ aggExprs !! i = Some (set_ColIdx s (uint32 (Z.of_nat i))).
Proof.
  intros Hat Hm. destruct (render_node_at_markers render p m Hat Hm) as [i Hi].
  destruct (found_lookup tbl ident (render_markers render) i p m) as (s & Hs & Hf);
    [apply render_markers_holders | done |].
  exists (assign_ColIdx (found tbl ident (render_markers render))), i, s.
  split_and!; [apply extractAggExprs_spec | done | done |].
  by apply assign_ColIdx_lookup.
Qed.

(** ** Upper-casing *)



(** ** The scenarios of the specification *)

Example ToUpper_count : ToUpper "Count" = "COUNT"%string.
Proof. reflexivity. Qed.

(** [SELECT COUNT(k), SUM(v + w), v + w FROM kv GROUP BY v + w]. *)
Example scenario_1 :
  let render :=
    [aggregateFuncHolder (FuncExpr "count" NoFuncType [ColumnRef 0]);
     aggregateFuncHolder
       (FuncExpr "sum" NoFuncType [BinaryOp Plus (ColumnRef 1) (ColumnRef 2)]);
     aggregateFuncHolder (BinaryOp Plus (ColumnRef 1) (ColumnRef 2))] in
  extractAggExprs example_Func_value 0 render
  = Some [ {| Func := 5; Distinct := false; ColIdx := 0 |};
           {| Func := 10; Distinct := false; ColIdx := 1 |};
           {| Func := 0; Distinct := false; ColIdx := 2 |} ]
  ∧ extractPostAggrExprs render
    = Some ([IndexedVar 0; IndexedVar 1; IndexedVar 2], false).
Proof. split; reflexivity. Qed.

(** [SELECT COUNT(k) + COUNT(v) FROM kv]. *)
Example scenario_2 :
  let render :=
    [BinaryOp Plus
       (aggregateFuncHolder (FuncExpr "count" NoFuncType [ColumnRef 0]))
       (aggregateFuncHolder (FuncExpr "count" NoFuncType [ColumnRef 1]))] in
  extractAggExprs example_Func_value 0 render
  = Some [ {| Func := 5; Distinct := false; ColIdx := 0 |};
           {| Func := 5; Distinct := false; ColIdx := 1 |} ]
  ∧ extractPostAggrExprs render
    = Some ([BinaryOp Plus (IndexedVar 0) (IndexedVar 1)], true).
Proof. split; reflexivity. Qed.

(** [SELECT k, v, COUNT(k) + COUNT(v) FROM kv GROUP BY k, v]. *)
Example scenario_3 :
  let render :=
    [aggregateFuncHolder (ColumnRef 0);
     aggregateFuncHolder (ColumnRef 1);
     BinaryOp Plus
       (aggregateFuncHolder (FuncExpr "count" NoFuncType [ColumnRef 0]))
       (aggregateFuncHolder (FuncExpr "count" NoFuncType [ColumnRef 1]))] in
  extractAggExprs example_Func_value 0 render
  = Some [ {| Func := 0; Distinct := false; ColIdx := 0 |};
           {| Func := 0; Distinct := false; ColIdx := 1 |};
           {| Func := 5; Distinct := false; ColIdx := 2 |};
           {| Func := 5; Distinct := false; ColIdx := 3 |} ]
  ∧ extractPostAggrExprs render
    = Some ([IndexedVar 0; IndexedVar 1;
             BinaryOp Plus (IndexedVar 2) (IndexedVar 3)], true).
Proof. split; reflexivity. Qed.

(** A marker inside a marker is out of the reach of both passes. *)
Example nested_marker :
  let render :=
    [aggregateFuncHolder
       (FuncExpr "sum" NoFuncType
          [aggregateFuncHolder (FuncExpr "count" NoFuncType [ColumnRef 0])])] in
  extractAggExprs example_Func_value 0 render
  = Some [ {| Func := 10; Distinct := false; ColIdx := 0 |} ]
  ∧ extractPostAggrExprs render = Some ([IndexedVar 0], false).
Proof. split; reflexivity. Qed.

(** * Main results *)

(** C1, as amended: for every render list in which no marker is nested and
    which has [k ≤ 2^32] markers in all, [extractAggExprs] returns exactly
    [k] entries, whose [ColIdx] read in list order are [0, 1, ..., k-1], the
    entry numbered [i] being the one of the i-th marker in left-to-right,
    outer-to-inner discovery order. *)
Theorem extractAggExprs_ColIdx_in_sequence tbl ident render :
  forallb no_nested_markers render = true →
  total_markers render ≤ 2 ^ 32 →
  ColIdx_in_sequence tbl ident render.
Proof.
  intros Hnest Hk. pose proof (length_render_markers render Hnest) as Hlen.
  pose proof (length_found tbl ident _ (render_markers_holders render)) as Hfound.
  exists (assign_ColIdx (found tbl ident (render_markers render))).
  split_and!.
  - apply extractAggExprs_spec.
  - rewrite length_assign_ColIdx. lia.
  - rewrite assign_ColIdx_seqZ by lia. f_equal. lia.
  - intros i p m Hi.
    destruct (found_lookup tbl ident (render_markers render) i p m) as (s & Hs & Hf);
      [apply render_markers_holders | done |].
    exists s. split; [done |]. rewrite (assign_ColIdx_lookup _ _ _ Hf).
    apply lookup_lt_Some in Hi. rewrite uint32_small by lia. done.
Qed.

Lemma extractAggExprs_ColIdx_in_sequence_witness :
  forallb no_nested_markers example_render = true
  ∧ total_markers example_render ≤ 2 ^ 32
  ∧ ColIdx_in_sequence example_Func_value 0 example_render.
Proof.
  split; [reflexivity |]. split; [vm_compute; discriminate |].
  apply extractAggExprs_ColIdx_in_sequence; [reflexivity | vm_compute; discriminate].
Defined.

(** Past [2^32] markers the sequence of [ColIdx] starts again from zero. *)
Lemma ColIdx_in_sequence_doubled tbl ident n h :
  (32 ≤ n)%nat → count_markers h = 0 →
  ¬ ColIdx_in_sequence tbl ident [doubled n; aggregateFuncHolder h].
Proof.
  intros Hn Hh (aggExprs & Hex & Hlen & Hseq & _).
  rewrite extractAggExprs_spec in Hex. injection Hex as <-.
  destruct (doubled_render n h Hh) as [_ Hk]. rewrite Hk in Hlen, Hseq.
  rewrite length_assign_ColIdx in Hlen. rewrite <- Hlen in Hseq.
  apply assign_ColIdx_seqZ_inv in Hseq.
  assert (2 ^ 32 ≤ 2 ^ Z.of_nat n) by (apply Z.pow_le_mono_r; lia).
  lia.
Qed.

(** C1, the counterexample: the render list of [doubled 32], which has
    [2^32] markers, and one more marker has no nested marker, and the
    [ColIdx] of its [2^32 + 1] entries are not [0, 1, ..., 2^32]:
    [uint32(i)] gives the last entry the [ColIdx] 0. *)
Lemma extractAggExprs_ColIdx_wraps :
  forallb no_nested_markers [doubled 32; aggregateFuncHolder (ColumnRef 0)] = true
  ∧ ¬ ColIdx_in_sequence ∅ 0 [doubled 32; aggregateFuncHolder (ColumnRef 0)].
Proof.
  split.
  - apply (doubled_render 32 (ColumnRef 0)). reflexivity.
  - apply ColIdx_in_sequence_doubled; [apply le_n | reflexivity].
Qed.

(** C2, as amended: for every render list in which no marker is nested and
    which has at most [2^32] markers, [extractAggExprs] and
    [extractPostAggrExprs] number the markers in the same order: for every
    [i] from 0 to [k-1], the ordinal reference carrying [i] stands in the
    place of the marker of which the entry with [ColIdx] [i], the i-th of
    the list, was made. *)
Theorem extract_cross_consistent tbl ident render :
  forallb no_nested_markers render = true →
  total_markers render ≤ 2 ^ 32 →
  cross_consistent tbl ident render.
Proof.
  intros Hnest Hk. pose proof (length_render_markers render Hnest) as Hlen.
  pose proof (length_found tbl ident _ (render_markers_holders render)) as Hfound.
  destruct (extractPostAggrExprs_spec render) as (evalExprs & Hpost & Hat & _).
  exists (assign_ColIdx (found tbl ident (render_markers render))), evalExprs.
  eexists. split_and!; [apply extractAggExprs_spec | apply Hpost | |].
  - rewrite length_assign_ColIdx. lia.
  - rewrite length_assign_ColIdx, Hfound. intros i Hi.
    destruct (lookup_lt_is_Some_2 (render_markers render) i Hi) as [[p m] Hpm].
    destruct (found_lookup tbl ident (render_markers render) i p m) as (s & Hs & Hf);
      [apply render_markers_holders | done |].
    exists p, m, s. split_and!; [done | | done | |].
    + by eapply render_markers_node_at.
    + rewrite (assign_ColIdx_lookup _ _ _ Hf), uint32_small by lia. done.
    + rewrite (Hat i p m Hpm), int_wrap_small; [done |].
      unfold int_min, int_max. lia.
Qed.

Lemma extract_cross_consistent_witness :
  forallb no_nested_markers example_render = true
  ∧ total_markers example_render ≤ 2 ^ 32
  ∧ cross_consistent example_Func_value 0 example_render.
Proof.
  split; [reflexivity |]. split; [vm_compute; discriminate |].
  apply extract_cross_consistent; [reflexivity | vm_compute; discriminate].
Defined.

(** Past [2^32] markers the entry of a marker does not have the number of
    the marker's ordinal reference. *)
Lemma cross_consistent_doubled tbl ident n h :
  (32 ≤ n)%nat → count_markers h = 0 →
  ¬ cross_consistent tbl ident [doubled n; aggregateFuncHolder h].
Proof.
  intros Hn Hh (aggExprs & evalExprs & needEval & Hex & _ & Hlen & Hall).
  rewrite extractAggExprs_spec in Hex. injection Hex as <-.
  destruct (doubled_render n h Hh) as [_ Hk]. rewrite Hk in Hlen.
  assert (Hpow : 2 ^ 32 ≤ 2 ^ Z.of_nat n) by (apply Z.pow_le_mono_r; lia).
  destruct (Z_of_nat_complete (2 ^ 32)) as [i Hi]; [lia |].
  destruct (Hall i) as (p & m & s & _ & _ & _ & Hs & _); [lia |].
  rewrite length_assign_ColIdx in Hlen.
  destruct (lookup_lt_is_Some_2 (found tbl ident
              (render_markers [doubled n; aggregateFuncHolder h])) i) as [s' Hs'];
    [lia |].
  rewrite (assign_ColIdx_lookup _ _ _ Hs') in Hs.
  apply (f_equal (fmap ColIdx)) in Hs. simpl in Hs. injection Hs as Hs.
  rewrite <- Hi in Hs. unfold uint32 in Hs. rewrite Z_mod_same_full in Hs. lia.
Qed.

(** C2, the counterexample: in the render list of [doubled 32] and one more
    marker, no marker is nested, and the ordinal reference of the last
    marker carries [2^32] while the entry made of that marker, the last of
    [2^32 + 1], has the [ColIdx] 0. *)
Lemma extract_cross_consistent_wraps :
  forallb no_nested_markers [doubled 32; aggregateFuncHolder (ColumnRef 0)] = true
  ∧ ¬ cross_consistent ∅ 0 [doubled 32; aggregateFuncHolder (ColumnRef 0)].
Proof.
  split.
  - apply (doubled_render 32 (ColumnRef 0)). reflexivity.
  - apply cross_consistent_doubled; [apply le_n | reflexivity].
Qed.

Lemma existsb_not_IndexedVar evalExprs :
  existsb (λ e, negb (is_IndexedVar e)) evalExprs = false
  ↔ Forall bare_OrdinalReference evalExprs.
Proof.
  induction evalExprs as [| e evalExprs IH]; simpl.
  - split; [constructor | done].
  - rewrite orb_false_iff, IH, Forall_cons. apply and_iff_compat_r.
    unfold bare_OrdinalReference. destruct e; simpl; split; try done;
      try (by intros [? [=]]); eauto.
Qed.

(** C3: for every render list, [extractPostAggrExprs] returns, and its
    [needEval] is false if and only if every rewritten expression is a bare
    ordinal reference. So a computation put around any one render
    expression, as in [e + 1], makes [needEval] true. *)
Theorem extractPostAggrExprs_needEval :
  (∀ render, ∃ evalExprs needEval,
     extractPostAggrExprs render = Some (evalExprs, needEval)
     ∧ (needEval = false ↔ Forall bare_OrdinalReference evalExprs))
  ∧ (∀ before e after op rhs, ∃ evalExprs,
       extractPostAggrExprs (before ++ BinaryOp op e rhs :: after)
       = Some (evalExprs, true)).
Proof.
  split.
  - intros render.
    destruct (extractPostAggrExprs_spec render) as (evalExprs & Hpost & _ & _).
    eexists _, _. split; [apply Hpost |]. apply existsb_not_IndexedVar.
  - intros before e after op rhs.
    destruct (extractPostAggrExprs_spec (before ++ BinaryOp op e rhs :: after))
      as (evalExprs & Hpost & _ & Hvar).
    exists evalExprs. rewrite Hpost. do 2 f_equal.
    apply Forall2_app_inv_l in Hvar as (ev1 & ev2 & _ & Hvar & ->).
    apply Forall2_cons_inv_l in Hvar as (e' & ev3 & He' & _ & ->).
    rewrite existsb_app. simpl in *. rewrite He'. simpl. apply orb_true_r.
Qed.



(** C5: for every marker of a render list whose inner expression is not a
    function call, the entry made of the marker has [IDENT] as its [Func]
    and its [Distinct] is false, whatever the inner expression is. *)
Theorem extractAggExprs_pass_through tbl ident render p h :
  render_node_at render p = Some (aggregateFuncHolder h) →
  (∀ f t args, h ≠ FuncExpr f t args) →
  ∃ aggExprs i s,
    extractAggExprs tbl ident render = Some aggExprs
    ∧ render_markers render !! i = Some (p, aggregateFuncHolder h)
    ∧ aggExprs !! i = Some s
    ∧ Func s = ident ∧ Distinct s = false.
Proof.
  intros Hat Hh.
  destruct (extractAggExprs_marker tbl ident render p _ Hat eq_refl)
    as (aggExprs & i & s & Hex & Hi & Hs & Hlook).
  eexists aggExprs, i, _. split_and!; [done | done | apply Hlook | |];
    destruct h; try (by injection Hs as <-); by edestruct Hh.
Qed.

Lemma extractAggExprs_pass_through_witness :
  render_node_at example_render [0]%nat = Some (aggregateFuncHolder (ColumnRef 0))
  ∧ (∀ f t args, ColumnRef 0 ≠ FuncExpr f t args)
  ∧ ∃ aggExprs i s,
      extractAggExprs example_Func_value 7 example_render = Some aggExprs
      ∧ render_markers example_render !! i
        = Some ([0]%nat, aggregateFuncHolder (ColumnRef 0))
      ∧ aggExprs !! i = Some s
      ∧ Func s = 7 ∧ Distinct s = false.
Proof.
  split; [reflexivity |]. split; [discriminate |].
  apply extractAggExprs_pass_through; [reflexivity | discriminate].
Defined.

Lemma extract_each_spec tbl ident cs : ∀ start,
  extract_each tbl ident start cs
  = Some (start ++ (cs ≫= λ c, found tbl ident (markers c))).
Proof.
  unfold extract_each.
  induction cs as [| c cs IH]; intros start; simpl; [by rewrite app_nil_r |].
  rewrite aggExprVisitor_extract_spec. simpl. by rewrite IH, app_assoc.
Qed.

(** C6: in the extraction the children of a node that is not a marker are
    all explored, from left to right: a function call's arguments, a binary
    operation's operands (a leaf has none and adds nothing). A marker is not
    explored into: whatever its inner expression, markers included, it adds
    exactly one entry, and the arguments of the call inside it play no part. *)
Theorem aggExprVisitor_explores tbl ident v :
  (∀ f t args,
     aggExprVisitor_extract tbl ident v (FuncExpr f t args)
     = extract_each tbl ident (exprs v) args)
  ∧ (∀ op l r,
       aggExprVisitor_extract tbl ident v (BinaryOp op l r)
       = extract_each tbl ident (exprs v) [l; r])
  ∧ (∀ e, children e = [] ∧ is_holder e = false →
          aggExprVisitor_extract tbl ident v e = Some (exprs v))
  ∧ (∀ h, ∃ s,
       aggExprVisitor_extract tbl ident v (aggregateFuncHolder h)
       = Some (exprs v ++ [s]))
  ∧ (∀ f t args args',
       aggExprVisitor_extract tbl ident v (aggregateFuncHolder (FuncExpr f t args))
       = aggExprVisitor_extract tbl ident v (aggregateFuncHolder (FuncExpr f t args'))).
Proof.
  split_and!.
  - intros f t args. rewrite aggExprVisitor_extract_spec, extract_each_spec.
    simpl. by rewrite found_child_markers.
  - intros op l r. rewrite aggExprVisitor_extract_spec, extract_each_spec.
    simpl. by rewrite found_app, !found_below, app_nil_r.
  - intros e [Hc He]. rewrite aggExprVisitor_extract_spec.
    rewrite markers_unfold, Hc by done. by rewrite found_nil, app_nil_r.
  - intros h. destruct (visited_entries_holder tbl ident h) as [s Hs].
    exists s. rewrite aggExprVisitor_extract_spec. unfold found. simpl.
    by rewrite Hs, app_nil_r.
  - intros f t args args'. by rewrite !aggExprVisitor_extract_spec.
Qed.

Lemma aggExprVisitor_explores_witness :
  children (Literal 3) = [] ∧ is_holder (Literal 3) = false
  ∧ aggExprVisitor_extract example_Func_value 0 {| exprs := [] |} (Literal 3)
    = Some [].
Proof.
  split; [reflexivity |]. split; [reflexivity |].
  apply (aggExprVisitor_explores example_Func_value 0 {| exprs := [] |}).
  split; reflexivity.
Defined.




(** Proves that two given strings differ only in the case of their letters. *)
Ltac differ_only_in_case :=
  repeat (constructor;
    [first [ left; reflexivity
           | right; left; split; reflexivity
           | right; right; split; reflexivity ] |]);
  constructor.



(** C10: on the empty render list [extractAggExprs] returns no entry, and
    [extractPostAggrExprs] returns no expression and [needEval] false. *)
Theorem extract_empty tbl ident :
  extractAggExprs tbl ident [] = Some []
  ∧ extractPostAggrExprs [] = Some ([], false).
Proof. split; reflexivity. Qed.

(** * Further properties of the two visitors *)

(** ** The extraction does not touch the tree *)

(** X1: The walk of an [aggExprVisitor] gives back the expression it was given,
    and only appends to the visitor: the entries the visitor came with stay,
    in order, in front of the new ones. *)
Theorem aggExprVisitor_walk_appends tbl ident v e :
  ∃ new,
    WalkExpr (H := aggExprVisitor_Visitor tbl ident) v e
    = Some ({| exprs := exprs v ++ new |}, e)
    ∧ length new = length (markers e).
Proof.
  exists (found tbl ident (markers e)). split.
  - unfold WalkExpr. apply aggExprVisitor_walk. lia.
  - apply length_found. apply markers_holders.
Qed.

(** ** The two numberings *)

Lemma uint32_int_wrap z : uint32 (int_wrap z) = uint32 z.
Proof.
  unfold uint32, int_wrap.
  rewrite (Z.mod_eq (z + 2 ^ 63) (2 ^ 64)) by lia.
  replace (z + 2 ^ 63 - 2 ^ 64 * ((z + 2 ^ 63) / 2 ^ 64) - 2 ^ 63)
    with (z + (- (2 ^ 32 * ((z + 2 ^ 63) / 2 ^ 64))) * 2 ^ 32) by lia.
  apply Z_mod_plus_full.
Qed.

(** X2: For every marker that a path reaches in a render list, nested markers
    or not and however long the list: the rewriter puts an ordinal reference
    in the marker's place, the extractor has the entry made of the marker at
    the marker's index in discovery order, and the [ColIdx] of that entry is
    the index of the ordinal reference cut to 32 bits. *)
Theorem marker_entry_and_reference tbl ident render p m :
  render_node_at render p = Some m → is_holder m = true →
  ∃ aggExprs evalExprs needEval i s Idx,
    extractAggExprs tbl ident render = Some aggExprs
    ∧ extractPostAggrExprs render = Some (evalExprs, needEval)
    ∧ render_markers render !! i = Some (p, m)
    ∧ aggExprs !! i = Some s
    ∧ visited_entries tbl ident m = [set_ColIdx s 0]
    ∧ render_node_at evalExprs p = Some (IndexedVar Idx)
    ∧ Idx = int_wrap (Z.of_nat i)
    ∧ ColIdx s = uint32 Idx.
Proof.
  intros Hat Hm.
  destruct (extractAggExprs_marker tbl ident render p m Hat Hm)
    as (aggExprs & i & s & Hex & Hi & Hs & Hlook).
  destruct (extractPostAggrExprs_spec render) as (evalExprs & Hpost & Hrefs & _).
  eexists aggExprs, evalExprs, _, i, _, _.
  split_and!; [done | done | done | apply Hlook | | by apply (Hrefs i p m) | done |].
  - rewrite Hs. destruct m as [| | | | h |]; try discriminate.
    destruct h; injection Hs as <-; reflexivity.
  - simpl. by rewrite uint32_int_wrap.
Qed.

Lemma marker_entry_and_reference_witness :
  render_node_at example_render [1; 1]%nat
  = Some (aggregateFuncHolder (FuncExpr "SUM" DistinctFuncType [ColumnRef 2]))
  ∧ is_holder (aggregateFuncHolder (FuncExpr "SUM" DistinctFuncType [ColumnRef 2]))
    = true
  ∧ ∃ aggExprs evalExprs needEval i s Idx,
      extractAggExprs example_Func_value 0 example_render = Some aggExprs
      ∧ extractPostAggrExprs example_render = Some (evalExprs, needEval)
      ∧ render_markers example_render !! i
        = Some ([1; 1]%nat,
                aggregateFuncHolder (FuncExpr "SUM" DistinctFuncType [ColumnRef 2]))
      ∧ aggExprs !! i = Some s
      ∧ visited_entries example_Func_value 0
          (aggregateFuncHolder (FuncExpr "SUM" DistinctFuncType [ColumnRef 2]))
        = [set_ColIdx s 0]
      ∧ render_node_at evalExprs [1; 1]%nat = Some (IndexedVar Idx)
      ∧ Idx = int_wrap (Z.of_nat i)
      ∧ ColIdx s = uint32 Idx.
Proof.
  split; [reflexivity |]. split; [reflexivity |].
  apply marker_entry_and_reference; reflexivity.
Defined.

(** ** What [needEval] says about the render list *)

(** X3: [extractPostAggrExprs] returns one expression for each render
    expression, and [needEval] is false exactly when every render expression
    is itself a marker or an ordinal reference. *)
Theorem extractPostAggrExprs_needEval_render render :
  ∃ evalExprs needEval,
    extractPostAggrExprs render = Some (evalExprs, needEval)
    ∧ length evalExprs = length render
    ∧ (needEval = false
       ↔ Forall (λ e, is_holder e = true ∨ is_IndexedVar e = true) render).
Proof.
  destruct (extractPostAggrExprs_spec render) as (evalExprs & Hpost & _ & Hvar).
  eexists _, _. split_and!; [apply Hpost | symmetry; by eapply Forall2_length |].
  clear Hpost. induction Hvar as [| e e' render evalExprs He _ IH]; simpl.
  - split; [constructor | done].
  - rewrite orb_false_iff, negb_false_iff, IH, Forall_cons, He, orb_true_iff.
    tauto.
Qed.

Lemma child_markers_holders es : ∀ j,
  Forall (λ e, is_holder e = true) es →
  child_markers markers j es = imap (λ i e, ([(j + i)%nat], e)) es.
Proof.
  induction es as [| e es IH]; intros j Hes; [done |].
  apply Forall_cons in Hes as [He Hes]. simpl.
  destruct e; try discriminate. simpl. rewrite Nat.add_0_r.
  unfold below at 1. simpl. f_equal. rewrite (IH (S j) Hes).
  apply imap_ext. intros i e' _. simpl. do 3 f_equal. lia.
Qed.

(** X4: When every render expression is a marker (and there are no more of them
    than an [int] can count), the rewritten list is [@0, @1, ...], one
    reference for each render expression in order; [needEval] is false; and
    the extractor has one entry for each render expression. *)
Theorem extractPostAggrExprs_all_markers tbl ident render :
  Forall (λ e, is_holder e = true) render →
  Z.of_nat (length render) ≤ 2 ^ 63 →
  extractPostAggrExprs render
  = Some (imap (λ i _, IndexedVar (Z.of_nat i)) render, false)
  ∧ ∃ aggExprs,
      extractAggExprs tbl ident render = Some aggExprs
      ∧ length aggExprs = length render.
Proof.
  intros Hall Hlen. split.
  - destruct (extractPostAggrExprs_needEval_render render)
      as (evalExprs & needEval & Hpost & Hlength & Heval).
    destruct (extractPostAggrExprs_spec render) as (evalExprs' & Hpost' & Hrefs & _).
    rewrite Hpost in Hpost'. injection Hpost' as <- ->.
    rewrite Hpost. f_equal. f_equal.
    + apply list_eq. intros j. rewrite list_lookup_imap.
      destruct (render !! j) as [e |] eqn:He; simpl.
      * apply lookup_lt_Some in He as Hj.
        assert (Hm : render_markers render !! j = Some ([j], e)).
        { unfold render_markers. rewrite child_markers_holders by done.
          by rewrite list_lookup_imap, He. }
        apply Hrefs in Hm. simpl in Hm.
        destruct (evalExprs !! j) as [e' |]; [| done]. simpl in Hm.
        rewrite Hm, int_wrap_small; [done |]. unfold int_min, int_max. lia.
      * apply lookup_ge_None in He. apply lookup_ge_None. lia.
    + apply Heval. eapply Forall_impl; [exact Hall |]. simpl. auto.
  - eexists. split; [apply extractAggExprs_spec |].
    rewrite length_assign_ColIdx, length_found by apply render_markers_holders.
    unfold render_markers. rewrite child_markers_holders by done.
    apply length_imap.
Qed.

Lemma extractPostAggrExprs_all_markers_witness :
  Forall (λ e, is_holder e = true)
    [aggregateFuncHolder (ColumnRef 0);
     aggregateFuncHolder (FuncExpr "count" NoFuncType [ColumnRef 1])]
  ∧ Z.of_nat (length [aggregateFuncHolder (ColumnRef 0);
                      aggregateFuncHolder (FuncExpr "count" NoFuncType [ColumnRef 1])])
    ≤ 2 ^ 63
  ∧ extractPostAggrExprs
      [aggregateFuncHolder (ColumnRef 0);
       aggregateFuncHolder (FuncExpr "count" NoFuncType [ColumnRef 1])]
    = Some (imap (λ i _, IndexedVar (Z.of_nat i))
              [aggregateFuncHolder (ColumnRef 0);
               aggregateFuncHolder (FuncExpr "count" NoFuncType [ColumnRef 1])],
            false)
    ∧ ∃ aggExprs,
        extractAggExprs example_Func_value 0
          [aggregateFuncHolder (ColumnRef 0);
           aggregateFuncHolder (FuncExpr "count" NoFuncType [ColumnRef 1])]
        = Some aggExprs
        ∧ length aggExprs
          = length [aggregateFuncHolder (ColumnRef 0);
                    aggregateFuncHolder (FuncExpr "count" NoFuncType [ColumnRef 1])].
Proof.
  assert (Hall : Forall (λ e, is_holder e = true)
            [aggregateFuncHolder (ColumnRef 0);
             aggregateFuncHolder (FuncExpr "count" NoFuncType [ColumnRef 1])])
    by (repeat constructor).
  split; [exact Hall |]. split; [vm_compute; discriminate |].
  apply extractPostAggrExprs_all_markers; [exact Hall | vm_compute; discriminate].
Defined.

(** ** What the rewriter leaves behind *)

Lemma child_markers_nil es : ∀ j,
  child_markers markers j es = [] ↔ Forall (λ e, markers e = []) es.
Proof.
  induction es as [| e es IH]; intros j; simpl.
  - split; [constructor | done].
  - rewrite Forall_cons, <- (IH (S j)). split.
    + intros [H1 H2]%app_eq_nil. by apply fmap_nil_inv in H1.
    + intros [-> ->]. done.
Qed.

Lemma post_walk_exprs_shape
    (W : postAggExprVisitor → Expr → option (postAggExprVisitor * Expr)) :
  (∀ e v r, W v e = Some r → markers r.2 = [] ∧ (markers e = [] → r = (v, e))) →
  ∀ es v r, walk_exprs W v es = Some r →
    Forall (λ e, markers e = []) r.2
    ∧ (Forall (λ e, markers e = []) es → r = (v, es)).
Proof.
  intros HW. induction es as [| e es IH]; intros v r; simpl.
  - intros [= <-]. split; [constructor | done].
  - destruct (W v e) as [[v1 e1] |] eqn:He; [| done]. simpl.
    destruct (walk_exprs W v1 es) as [[v2 es2] |] eqn:Hes; [| done]. simpl.
    intros [= <-]. simpl.
    destruct (HW _ _ _ He) as [He1 Hid]. destruct (IH _ _ Hes) as [Hes2 Hids].
    split; [by constructor |].
    intros [Hm Hms]%Forall_cons.
    specialize (Hid Hm). specialize (Hids Hms). by simplify_eq.
Qed.

Lemma postAggExprVisitor_walk_shape fuel : ∀ e v r,
  WalkExpr_fuel (H := postAggExprVisitor_Visitor) fuel v e = Some r →
  markers r.2 = [] ∧ (markers e = [] → r = (v, e)).
Proof.
  induction fuel as [| fuel IH]; intros e v r; [done |].
  cbn [WalkExpr_fuel VisitPre VisitPost postAggExprVisitor_Visitor
       postAggExprVisitor_VisitPre].
  destruct e as [| | f t es | op l r0 | h |]; simpl;
    try (intros [= <-]; by split).
  - destruct (walk_exprs _ v es) as [[v1 es1] |] eqn:Hes; [| done]. simpl.
    intros [= <-]. simpl.
    destruct (post_walk_exprs_shape _ IH _ _ _ Hes) as [Hes1 Hid].
    split; [by apply child_markers_nil |].
    intros Hm%child_markers_nil. specialize (Hid Hm). by simplify_eq.
  - destruct (WalkExpr_fuel fuel v l) as [[v1 l1] |] eqn:Hl; [| done]. simpl.
    destruct (WalkExpr_fuel fuel v1 r0) as [[v2 r1] |] eqn:Hr; [| done]. simpl.
    intros [= <-]. simpl.
    destruct (IH _ _ _ Hl) as [Hl1 Hidl]. destruct (IH _ _ _ Hr) as [Hr1 Hidr].
    simpl in *. rewrite Hl1, Hr1. split; [done |].
    intros [Hml%fmap_nil_inv Hmr%fmap_nil_inv]%app_eq_nil.
    specialize (Hidl Hml). specialize (Hidr Hmr). by simplify_eq.
Qed.

Lemma extractPostAggrExprs_shape render evalExprs needEval :
  extractPostAggrExprs render = Some (evalExprs, needEval) →
  render_markers evalExprs = []
  ∧ (render_markers render = [] → evalExprs = render).
Proof.
  unfold extractPostAggrExprs. rewrite extractPostAggrExprs_render_walk.
  destruct (walk_exprs _ _ render) as [[v results] |] eqn:Hwalk; [| done].
  simpl. intros [= <- <-].
  destruct (post_walk_exprs_shape postAggExprVisitor_extract) with
    (es := render) (v := {| count := 0 |}) (r := (v, results)) as [Hres Hid];
    [intros ???; apply postAggExprVisitor_walk_shape | done |].
  split; [by apply child_markers_nil |].
  intros Hm%child_markers_nil. specialize (Hid Hm). by simplify_eq.
Qed.

(** X5: A render list in which no path reaches a marker comes back from the
    rewriter as it is, and gives the extractor nothing. *)
Theorem extract_without_markers tbl ident render :
  (∀ p m, render_node_at render p = Some m → is_holder m = false) →
  extractAggExprs tbl ident render = Some []
  ∧ extractPostAggrExprs render
    = Some (render, existsb (λ e, negb (is_IndexedVar e)) render).
Proof.
  intros Hnone.
  assert (Hm : render_markers render = []).
  { destruct (render_markers render) as [| [p m] ms] eqn:Hms; [done |].
    assert (Hin : render_markers render !! 0%nat = Some (p, m)) by by rewrite Hms.
    assert (Hh : is_holder m = true).
    { apply (render_markers_holders render (p, m)). rewrite Hms. by left. }
    rewrite (Hnone p m) in Hh; [done |]. by eapply render_markers_node_at. }
  split.
  - by rewrite extractAggExprs_spec, Hm.
  - destruct (extractPostAggrExprs_spec render) as (evalExprs & Hpost & _ & _).
    destruct (extractPostAggrExprs_shape _ _ _ Hpost) as [_ Hid].
    rewrite Hpost. by rewrite (Hid Hm).
Qed.

Lemma extract_without_markers_witness :
  (∀ p m, render_node_at [BinaryOp Plus (ColumnRef 0) (Literal 1)] p = Some m →
          is_holder m = false)
  ∧ extractAggExprs example_Func_value 0 [BinaryOp Plus (ColumnRef 0) (Literal 1)]
    = Some []
  ∧ extractPostAggrExprs [BinaryOp Plus (ColumnRef 0) (Literal 1)]
    = Some ([BinaryOp Plus (ColumnRef 0) (Literal 1)],
            existsb (λ e, negb (is_IndexedVar e))
              [BinaryOp Plus (ColumnRef 0) (Literal 1)]).
Proof.
  assert (Hnone : ∀ p m,
    render_node_at [BinaryOp Plus (ColumnRef 0) (Literal 1)] p = Some m →
    is_holder m = false).
  { intros [| [| j] [| [| [| k]] [| i p]]] m; simpl; try done;
      try (by intros [= <-]); by destruct i. }
  split; [exact Hnone |].
  apply extract_without_markers. exact Hnone.
Defined.

(** X6: The rewriter leaves no marker that a path could reach: the extractor
    finds nothing in the rewritten list, and rewriting the rewritten list
    changes nothing, the flag included. *)
Theorem extractPostAggrExprs_idempotent tbl ident render :
  ∃ evalExprs needEval,
    extractPostAggrExprs render = Some (evalExprs, needEval)
    ∧ extractPostAggrExprs evalExprs = Some (evalExprs, needEval)
    ∧ extractAggExprs tbl ident evalExprs = Some [].
Proof.
  destruct (extractPostAggrExprs_spec render) as (evalExprs & Hpost & _ & _).
  destruct (extractPostAggrExprs_shape _ _ _ Hpost) as [Hm _].
  eexists _, _. split_and!; [apply Hpost | |].
  - destruct (extractPostAggrExprs_spec evalExprs) as (again & Hagain & _ & _).
    destruct (extractPostAggrExprs_shape _ _ _ Hagain) as [_ Hid].
    rewrite Hagain. by rewrite (Hid Hm).
  - by rewrite extractAggExprs_spec, Hm.
Qed.

(** ** Render lists put end to end *)

Lemma walk_exprs_app {V} (W : V → Expr → option (V * Expr)) es1 : ∀ es2 v,
  walk_exprs W v (es1 ++ es2)
  = '(v1, rs1) ← walk_exprs W v es1;
    '(v2, rs2) ← walk_exprs W v1 es2;
    Some (v2, rs1 ++ rs2).
Proof.
  induction es1 as [| e es1 IH]; intros es2 v; simpl.
  - by destruct (walk_exprs W v es2) as [[??] |].
  - destruct (W v e) as [[v1 e1] |]; [| done]. simpl. rewrite IH.
    destruct (walk_exprs W v1 es1) as [[v2 rs1] |]; [| done]. simpl.
    by destruct (walk_exprs W v2 es2) as [[??] |].
Qed.

(** X7: The entries of two render lists put end to end are the entries of the
    first, as they are, and then those of the second with the number of the
    first list's entries added to their [ColIdx] (in 32 bits): adding render
    expressions at the end renumbers nothing. *)
Theorem extractAggExprs_app tbl ident render1 render2 :
  ∃ aggExprs1 aggExprs2,
    extractAggExprs tbl ident render1 = Some aggExprs1
    ∧ extractAggExprs tbl ident render2 = Some aggExprs2
    ∧ extractAggExprs tbl ident (render1 ++ render2)
      = Some (aggExprs1
              ++ ((λ s, set_ColIdx s (uint32 (Z.of_nat (length aggExprs1) + ColIdx s)))
                  <$> aggExprs2)).
Proof.
  eexists _, _. rewrite !extractAggExprs_spec. split_and!; [done | done |].
  f_equal. unfold render_markers.
  rewrite child_markers_app, found_app, !found_child_markers.
  unfold assign_ColIdx at 1. rewrite imap_app. f_equal.
  rewrite length_assign_ColIdx. unfold assign_ColIdx.
  rewrite fmap_imap. apply imap_ext. intros i s _. simpl.
  unfold set_ColIdx. simpl. f_equal. unfold uint32.
  rewrite Zplus_mod_idemp_r. f_equal. lia.
Qed.

(** X8: Rewriting two render lists put end to end is rewriting the first and
    then going on with the second, the counter standing at the number of
    entries the extractor has for the first: the rewritten first list is the
    same as on its own, and [needEval] is true when it is for either part. *)
Theorem extractPostAggrExprs_app tbl ident render1 render2 :
  ∃ aggExprs1 evalExprs1 needEval1 evalExprs2 needEval2,
    extractAggExprs tbl ident render1 = Some aggExprs1
    ∧ extractPostAggrExprs render1 = Some (evalExprs1, needEval1)
    ∧ extractPostAggrExprs_render
        {| count := int_wrap (Z.of_nat (length aggExprs1)) |} render2 [] false
      = Some (evalExprs2, needEval2)
    ∧ extractPostAggrExprs (render1 ++ render2)
      = Some (evalExprs1 ++ evalExprs2, needEval1 || needEval2).
Proof.
  assert (Hok : ∀ es, Forall (post_walk_of postAggExprVisitor_extract) es).
  { intros es. apply Forall_forall. intros e _.
    apply postAggExprVisitor_extract_spec. }
  destruct (post_walk_exprs _ render1 (Hok _) 0%nat {| count := 0 |})
    as (rs1 & Hw1 & _); [unfold int_min, int_max; simpl; lia |].
  destruct (post_walk_exprs _ render2 (Hok _) 0%nat
              {| count := int_wrap (Z.of_nat (length (render_markers render1))) |})
    as (rs2 & Hw2 & _); [apply int_wrap_range |].
  cbn [count] in Hw1, Hw2. rewrite Z.add_0_l in Hw1.
  exists (assign_ColIdx (found tbl ident (render_markers render1))), rs1.
  eexists _, rs2, _.
  rewrite length_assign_ColIdx, length_found by apply render_markers_holders.
  split_and!.
  - apply extractAggExprs_spec.
  - unfold extractPostAggrExprs. rewrite extractPostAggrExprs_render_walk, Hw1.
    reflexivity.
  - rewrite extractPostAggrExprs_render_walk, Hw2. reflexivity.
  - unfold extractPostAggrExprs.
    rewrite extractPostAggrExprs_render_walk, walk_exprs_app, Hw1.
    unfold render_markers in Hw2. simpl in Hw2 |- *. rewrite Hw2. simpl.
    by rewrite existsb_app.
Qed.

(** * Properties of [random_test.go] *)

(** ** Bits *)

Lemma uint8_range z : 0 ≤ uint8 z < 2 ^ 8.
Proof. unfold uint8. apply Z.mod_pos_bound. lia. Qed.

Lemma uint32_range z : 0 ≤ uint32 z < 2 ^ 32.
Proof. unfold uint32. apply Z.mod_pos_bound. lia. Qed.

Lemma uint64_range z : 0 ≤ uint64 z < 2 ^ 64.
Proof. unfold uint64. apply Z.mod_pos_bound. lia. Qed.

Lemma lor_range a b n :
  0 ≤ n → 0 ≤ a < 2 ^ n → 0 ≤ b < 2 ^ n → 0 ≤ Z.lor a b < 2 ^ n.
Proof.
  intros Hn Ha Hb. split; [apply Z.lor_nonneg; lia |].
  destruct (Z.eq_dec (Z.lor a b) 0) as [-> | Hne]; [lia |].
  apply Z.log2_lt_pow2; [pose proof (Z.lor_nonneg a b); lia |].
  rewrite Z.log2_lor by lia.
  destruct (Z.eq_dec a 0) as [-> | Ha0]; destruct (Z.eq_dec b 0) as [-> | Hb0].
  - done.
  - simpl. rewrite Z.max_r by apply Z.log2_nonneg. apply Z.log2_lt_pow2; lia.
  - rewrite Z.max_l by apply Z.log2_nonneg. apply Z.log2_lt_pow2; lia.
  - apply Z.max_lub_lt; apply Z.log2_lt_pow2; lia.
Qed.

Lemma shiftr_range x n : 0 ≤ n → 0 ≤ x < 2 ^ 32 → 0 ≤ Z.shiftr x n < 2 ^ 32.
Proof.
  intros Hn Hx. rewrite Z.shiftr_div_pow2 by done.
  assert (0 < 2 ^ n) by (apply Z.pow_pos_nonneg; lia).
  split; [apply Z.div_pos; lia |].
  apply Z.le_lt_trans with x; [| lia]. apply Z.div_le_upper_bound; nia.
Qed.

(** The rotation count that [bits.RotateLeft32] works with is [k mod 32]. *)
Lemma RotateLeft32_count k : Z.land (uint64 k) (32 - 1) = k mod 32.
Proof.
  change (32 - 1) with (Z.ones 5). rewrite Z.land_ones by lia.
  unfold uint64. apply Z.mod_mod_divide. exists (2 ^ 59). reflexivity.
Qed.

Lemma RotateLeft32_range x k : 0 ≤ x < 2 ^ 32 → 0 ≤ bits.RotateLeft32 x k < 2 ^ 32.
Proof.
  intros Hx. unfold bits.RotateLeft32. rewrite RotateLeft32_count.
  pose proof (Z.mod_pos_bound k 32 ltac:(lia)).
  apply lor_range; [lia | apply uint32_range | apply shiftr_range; lia].
Qed.

(** ** [uint8n] and [uint16n] *)

Lemma uint8n_small r n :
  0 ≤ r < 2 ^ 8 → 0 ≤ n → r * n < 2 ^ 32 → tpcc.uint8n r n = r * n / 2 ^ 8.
Proof.
  intros Hr Hn Hrn. unfold tpcc.uint8n.
  rewrite (uint32_small r) by lia. rewrite uint32_small by nia.
  apply Z.shiftr_div_pow2. lia.
Qed.

(** X9: [uint8n(r, n)] is below [n] for every byte [r] and every [n] but 0,
    also when the product [r * n] does not fit in 32 bits; when it fits, the
    result is the whole part of [r * n / 256]. *)
Theorem uint8n_below r n :
  0 ≤ r < 2 ^ 8 → 0 < n < 2 ^ 32 →
  0 ≤ tpcc.uint8n r n < n
  ∧ (r * n < 2 ^ 32 → tpcc.uint8n r n = r * n / 2 ^ 8).
Proof.
  intros Hr Hn. split; [| apply uint8n_small; lia].
  unfold tpcc.uint8n. rewrite (uint32_small r) by lia.
  rewrite Z.shiftr_div_pow2 by lia.
  pose proof (uint32_range (r * n)) as Hu. unfold uint32 in *.
  split; [apply Z.div_pos; lia |].
  apply Z.div_lt_upper_bound; [lia |].
  destruct (Z.lt_ge_cases (r * n) (2 ^ 32)) as [Hfit | Hover].
  - rewrite Z.mod_small by nia. nia.
  - assert (2 ^ 24 < n) by nia. lia.
Qed.

Lemma uint8n_below_witness :
  0 ≤ 255 < 2 ^ 8 ∧ 0 < 26 < 2 ^ 32
  ∧ 0 ≤ tpcc.uint8n 255 26 < 26
  ∧ (255 * 26 < 2 ^ 32 → tpcc.uint8n 255 26 = 255 * 26 / 2 ^ 8).
Proof.
  split; [lia |]. split; [lia |]. apply uint8n_below; lia.
Defined.

(** X10: [uint16n(r, n)] is below [n] for every 16-bit [r] and every [n] but 0,
    also when the product does not fit in 64 bits; when it fits, the result
    is the whole part of [r * n / 65536]. *)
Theorem uint16n_below r n :
  0 ≤ r < 2 ^ 16 → 0 < n < 2 ^ 64 →
  0 ≤ tpcc.uint16n r n < n
  ∧ (r * n < 2 ^ 64 → tpcc.uint16n r n = r * n / 2 ^ 16).
Proof.
  intros Hr Hn. unfold tpcc.uint16n.
  assert (Hr64 : uint64 r = r) by (unfold uint64; apply Z.mod_small; lia).
  rewrite Hr64, Z.shiftr_div_pow2 by lia.
  pose proof (uint64_range (r * n)) as Hu. unfold uint64 in *.
  split.
  - split; [apply Z.div_pos; lia |].
    apply Z.div_lt_upper_bound; [lia |].
    destruct (Z.lt_ge_cases (r * n) (2 ^ 64)) as [Hfit | Hover].
    + rewrite Z.mod_small by nia. nia.
    + assert (2 ^ 48 < n) by nia. lia.
  - intros Hfit. rewrite Z.mod_small by nia. done.
Qed.

Lemma uint16n_below_witness :
  0 ≤ 65535 < 2 ^ 16 ∧ 0 < 10 < 2 ^ 64
  ∧ 0 ≤ tpcc.uint16n 65535 10 < 10
  ∧ (65535 * 10 < 2 ^ 64 → tpcc.uint16n 65535 10 = 65535 * 10 / 2 ^ 16).
Proof.
  split; [lia |]. split; [lia |]. apply uint16n_below; lia.
Defined.

(** The letter that the three functions make of a byte: ['A'] plus
    [uint8n] of the byte and 26. *)
Lemma letter_of_byte b :
  0 ≤ b < 2 ^ 8 →
  uint8 (65 + uint8 (tpcc.uint8n (uint8 b) 26)) = 65 + b * 26 / 2 ^ 8
  ∧ 65 ≤ 65 + b * 26 / 2 ^ 8 ≤ 90.
Proof.
  intros Hb. assert (Hb8 : uint8 b = b) by (unfold uint8; apply Z.mod_small; lia).
  rewrite Hb8, uint8n_small by lia.
  assert (0 ≤ b * 26 / 2 ^ 8 ≤ 25).
  { split; [apply Z.div_pos; lia |].
    apply Z.lt_succ_r. apply Z.div_lt_upper_bound; lia. }
  split; [| lia]. unfold uint8.
  rewrite (Z.mod_small (b * 26 / 2 ^ 8)) by lia. apply Z.mod_small. lia.
Qed.

(** X11: With 26 for [n], [uint8n] gives each of the 26 values below 26 for some
    byte, and nothing else: every letter can come out, and only letters. *)
Theorem uint8n_26_onto :
  (∀ r, 0 ≤ r < 2 ^ 8 → 0 ≤ tpcc.uint8n r 26 < 26)
  ∧ (∀ k, 0 ≤ k < 26 → ∃ r, 0 ≤ r < 2 ^ 8 ∧ tpcc.uint8n r 26 = k).
Proof.
  split.
  - intros r Hr. apply uint8n_below; lia.
  - intros k Hk. exists ((2 ^ 8 * k + 25) / 26).
    assert (Hr : 0 ≤ (2 ^ 8 * k + 25) / 26 < 2 ^ 8).
    { split; [apply Z.div_pos; lia | apply Z.div_lt_upper_bound; lia]. }
    split; [done |]. rewrite uint8n_small by lia.
    pose proof (Z.div_mod (2 ^ 8 * k + 25) 26 ltac:(lia)) as Hd.
    pose proof (Z.mod_pos_bound (2 ^ 8 * k + 25) 26 ltac:(lia)) as Hm.
    symmetry. apply Z.div_unique with ((2 ^ 8 * k + 25) / 26 * 26 - 2 ^ 8 * k); lia.
Qed.

Lemma uint8n_26_onto_witness :
  0 ≤ 200 < 2 ^ 8 ∧ 0 ≤ tpcc.uint8n 200 26 < 26.
Proof.
  split; [lia |]. apply uint8n_26_onto. lia.
Defined.

(** ** The generator *)

Lemma int_wrap_rot rot : 0 ≤ rot < 32 → int_wrap (- int_wrap rot) = - rot.
Proof.
  intros Hrot.
  rewrite (int_wrap_small rot) by (unfold int_min, int_max; lia).
  apply int_wrap_small. unfold int_min, int_max. lia.
Qed.

Lemma shiftr_59_range s : 0 ≤ s < 2 ^ 64 → 0 ≤ Z.shiftr s 59 < 32.
Proof.
  intros Hs. rewrite Z.shiftr_div_pow2 by lia.
  split; [apply Z.div_pos; lia | apply Z.div_lt_upper_bound; lia].
Qed.

(** With a negative count [bits.RotateLeft32] rotates to the right. *)
Lemma RotateLeft32_right x rot :
  0 ≤ x < 2 ^ 32 → 0 ≤ rot < 32 →
  bits.RotateLeft32 x (- rot)
  = Z.lor (Z.shiftr x rot) (uint32 (Z.shiftl x (32 - rot))).
Proof.
  intros Hx Hrot. unfold bits.RotateLeft32. rewrite RotateLeft32_count.
  destruct (Z.eq_dec rot 0) as [-> | Hne].
  - change (- 0) with 0. rewrite Z.mod_0_l by lia.
    rewrite !Z.sub_0_r, Z.shiftl_0_r, Z.shiftr_0_r.
    rewrite (Z.shiftr_div_pow2 x 32), Z.div_small, Z.lor_0_r by lia.
    rewrite Z.shiftl_mul_pow2 by lia. unfold uint32.
    rewrite Z_mod_mult, Z.lor_0_r. apply Z.mod_small. lia.
  - assert (Hs : - rot mod 32 = 32 - rot).
    { symmetry. apply Z.mod_unique with (-1); lia. }
    rewrite Hs. replace (32 - (32 - rot)) with rot by lia. apply Z.lor_comm.
Qed.

(** X12: [Uint32] gives a value of 32 bits and leaves a state of 64 bits,
    whatever the state was; from a state of 64 bits, the value is the 32
    bits [xorshifted] rotated to the right by the five highest bits of the
    old state. *)
Theorem pcg32_Uint32_rotates pcg :
  0 ≤ tpcc.state pcg < 2 ^ 64 →
  let xorshifted :=
    uint32 (Z.shiftr (Z.lxor (Z.shiftr (tpcc.state pcg) 18) (tpcc.state pcg)) 27) in
  let rot := Z.shiftr (tpcc.state pcg) 59 in
  pcg32_value pcg
  = Z.lor (Z.shiftr xorshifted rot) (uint32 (Z.shiftl xorshifted (32 - rot)))
  ∧ 0 ≤ pcg32_value pcg < 2 ^ 32
  ∧ 0 ≤ tpcc.state (pcg32_next pcg) < 2 ^ 64.
Proof.
  intros Hs xorshifted rot.
  pose proof (shiftr_59_range _ Hs) as Hrot.
  pose proof (uint32_range
    (Z.shiftr (Z.lxor (Z.shiftr (tpcc.state pcg) 18) (tpcc.state pcg)) 27)) as Hx.
  unfold pcg32_value, pcg32_next, tpcc.pcg32_Uint32. cbn [fst snd tpcc.state].
  rewrite int_wrap_rot by done. split; [| split].
  - by apply RotateLeft32_right.
  - by apply RotateLeft32_range.
  - apply uint64_range.
Qed.

Lemma pcg32_Uint32_rotates_witness :
  0 ≤ tpcc.state (tpcc.newPCG32 42) < 2 ^ 64
  ∧ let xorshifted :=
      uint32 (Z.shiftr (Z.lxor (Z.shiftr (tpcc.state (tpcc.newPCG32 42)) 18)
                          (tpcc.state (tpcc.newPCG32 42))) 27) in
    let rot := Z.shiftr (tpcc.state (tpcc.newPCG32 42)) 59 in
    pcg32_value (tpcc.newPCG32 42)
    = Z.lor (Z.shiftr xorshifted rot) (uint32 (Z.shiftl xorshifted (32 - rot)))
    ∧ 0 ≤ pcg32_value (tpcc.newPCG32 42) < 2 ^ 32
    ∧ 0 ≤ tpcc.state (pcg32_next (tpcc.newPCG32 42)) < 2 ^ 64.
Proof.
  split; [vm_compute; split; [discriminate | reflexivity] |].
  apply pcg32_Uint32_rotates. vm_compute. split; [discriminate | reflexivity].
Defined.

(** The values and the states are in range for every state. *)
Lemma pcg32_Uint32_range pcg :
  0 ≤ pcg32_value pcg < 2 ^ 32 ∧ 0 ≤ tpcc.state (pcg32_next pcg) < 2 ^ 64.
Proof.
  unfold pcg32_value, pcg32_next, tpcc.pcg32_Uint32. cbn [fst snd tpcc.state].
  split; [apply RotateLeft32_range, uint32_range | apply uint64_range].
Qed.

(** The multiplier is odd, so the step of the state can be undone. *)
Lemma lcg_injective a b c :
  - 2 ^ 64 < a - b < 2 ^ 64 →
  uint64 (a * 6364136223846793005 + c) = uint64 (b * 6364136223846793005 + c) →
  a = b.
Proof.
  unfold uint64. intros Hab Heq.
  assert (Hdiv : (2 ^ 64 | 6364136223846793005 * (a - b))).
  { apply Z.mod_divide; [lia |].
    replace (6364136223846793005 * (a - b))
      with ((a * 6364136223846793005 + c) - (b * 6364136223846793005 + c)) by lia.
    rewrite Zminus_mod, Heq, Z.sub_diag. apply Z.mod_0_l. lia. }
  apply Z.gauss in Hdiv; [| reflexivity].
  destruct Hdiv as [k Hk]. assert (k = 0) by lia. lia.
Qed.

(** X13: Two generators in different states are in different states after a call
    of [Uint32] as well: the generator never joins two sequences. *)
Theorem pcg32_next_injective pcg1 pcg2 :
  0 ≤ tpcc.state pcg1 < 2 ^ 64 → 0 ≤ tpcc.state pcg2 < 2 ^ 64 →
  pcg32_next pcg1 = pcg32_next pcg2 → pcg1 = pcg2.
Proof.
  intros H1 H2. unfold pcg32_next, tpcc.pcg32_Uint32. cbn [snd].
  intros [= Heq]. apply lcg_injective in Heq; [| lia].
  destruct pcg1, pcg2. simpl in Heq. by subst.
Qed.

Lemma pcg32_next_injective_witness :
  0 ≤ tpcc.state (tpcc.newPCG32 1) < 2 ^ 64
  ∧ 0 ≤ tpcc.state (tpcc.newPCG32 1) < 2 ^ 64
  ∧ (pcg32_next (tpcc.newPCG32 1) = pcg32_next (tpcc.newPCG32 1) →
     tpcc.newPCG32 1 = tpcc.newPCG32 1).
Proof.
  split; [vm_compute; split; [discriminate | reflexivity] |].
  split; [vm_compute; split; [discriminate | reflexivity] |].
  apply pcg32_next_injective; (vm_compute; split; [discriminate | reflexivity]).
Defined.

Lemma pcg32_Seed_closed p s :
  tpcc.pcg32_Seed p s
  = {| tpcc.state := uint64 ((s + 1) * 6364136223846793005 + 1) |}.
Proof.
  unfold tpcc.pcg32_Seed, tpcc.pcg32_Uint32. cbn [tpcc.state].
  f_equal. unfold uint64.
  rewrite (Z.mod_small (0 * 6364136223846793005 + 1)) by lia.
  rewrite <- (Zplus_mod_idemp_l (_ mod _ * _)).
  rewrite Zmult_mod_idemp_l, Zplus_mod_idemp_l. f_equal. lia.
Qed.

(** X14: [Seed] brings a generator to the state [((seed + 1) * m + 1) mod 2^64],
    [m] the multiplier, whatever state it was in: a generator that is seeded
    again is the generator of [newPCG32(seed)] again, and so are the values
    it gives. *)
Theorem pcg32_Seed_state pcg seed :
  tpcc.pcg32_Seed pcg seed
  = {| tpcc.state := uint64 ((seed + 1) * 6364136223846793005 + 1) |}
  ∧ tpcc.pcg32_Seed pcg seed = tpcc.newPCG32 seed
  ∧ ∀ n, pcg32_value (Nat.iter n pcg32_next (tpcc.pcg32_Seed pcg seed))
         = pcg32_value (Nat.iter n pcg32_next (tpcc.newPCG32 seed)).
Proof.
  assert (Heq : tpcc.pcg32_Seed pcg seed = tpcc.newPCG32 seed)
    by (unfold tpcc.newPCG32; by rewrite !pcg32_Seed_closed).
  split; [apply pcg32_Seed_closed |]. split; [done |].
  intros n. by rewrite Heq.
Qed.

(** X15: Two different seeds of 64 bits never seed the same state, whatever the
    generators were before. *)
Theorem pcg32_Seed_injective pcg1 pcg2 seed1 seed2 :
  0 ≤ seed1 < 2 ^ 64 → 0 ≤ seed2 < 2 ^ 64 →
  tpcc.pcg32_Seed pcg1 seed1 = tpcc.pcg32_Seed pcg2 seed2 → seed1 = seed2.
Proof.
  intros H1 H2. rewrite !pcg32_Seed_closed. intros [= Heq].
  apply lcg_injective in Heq; lia.
Qed.

Lemma pcg32_Seed_injective_witness :
  0 ≤ 7 < 2 ^ 64 ∧ 0 ≤ 7 < 2 ^ 64
  ∧ (tpcc.pcg32_Seed {| tpcc.state := 3 |} 7 = tpcc.pcg32_Seed {| tpcc.state := 9 |} 7
     → 7 = 7).
Proof.
  split; [lia |]. split; [lia |]. apply pcg32_Seed_injective; lia.
Defined.

(** ** Stores *)

Lemma store_Ret buf i b :
  (i < length buf)%nat → store buf i b = Ret (<[i := b]> buf).
Proof. intros Hi. unfold store. by rewrite decide_True. Qed.

Lemma letter_spec x :
  letter x = 65 + (x mod 2 ^ 8) * 26 / 2 ^ 8 ∧ is_letter (letter x).
Proof.
  unfold letter, is_letter.
  pose proof (uint8_range x) as Hx.
  destruct (letter_of_byte (uint8 x) Hx) as [Heq Hr].
  assert (Hidem : uint8 (uint8 x) = uint8 x)
    by (unfold uint8; apply Z.mod_mod; lia).
  rewrite Hidem in Heq. rewrite Heq. done.
Qed.

(** ** [randStringLetters3] *)

Lemma randStringLetters3_rest_spec todo : ∀ i r buf,
  (i + todo ≤ length buf)%nat →
  ∃ buf', tpcc.randStringLetters3_rest todo i r buf = Ret buf'
    ∧ length buf' = length buf
    ∧ (∀ j, (j < i ∨ i + todo ≤ j)%nat → buf' !! j = buf !! j)
    ∧ (∀ k, (k < todo)%nat →
         buf' !! (i + k)%nat = Some (letter (Z.shiftr r (8 * Z.of_nat k)))).
Proof.
  induction todo as [| todo IH]; intros i r buf Hlen; simpl.
  - exists buf. split_and!; [done | done | done | lia].
  - rewrite store_Ret by lia. simpl.
    destruct (IH (S i) (Z.shiftr r 8)
                (<[i := uint8 (65 + uint8 (tpcc.uint8n (uint8 r) 26))]> buf))
      as (buf' & -> & Hl & Hsame & Hnew); [rewrite length_insert; lia |].
    rewrite length_insert in Hl.
    exists buf'. split_and!; [done | done | |].
    + intros j Hj. rewrite Hsame by lia. apply list_lookup_insert_ne. lia.
    + intros [| k] Hk.
      * rewrite Nat.add_0_r, Hsame by lia.
        rewrite list_lookup_insert_eq by lia. done.
      * replace (i + S k)%nat with (S i + k)%nat by lia.
        rewrite Hnew by lia. rewrite Z.shiftr_shiftr by lia.
        do 3 f_equal. lia.
Qed.

Lemma store4 {A} (K : list Z → run A) buf x0 x1 x2 x3 :
  (4 ≤ length buf)%nat →
  (buf ← store buf 0 x0; buf ← store buf 1 x1;
   buf ← store buf 2 x2; buf ← store buf 3 x3; K buf)
  = K ([x0; x1; x2; x3] ++ drop 4 buf).
Proof.
  intros Hlen.
  destruct buf as [| b0 [| b1 [| b2 [| b3 rest]]]]; simpl in Hlen; try lia.
  rewrite !store_Ret by (simpl; lia). simpl. by rewrite drop_0.
Qed.

Lemma randStringLetters3_chunks_spec fuel : ∀ q l rng before buf,
  length buf = (4 * q + l)%nat → (l < 4)%nat → (length buf < fuel)%nat →
  ∃ written,
    tpcc.randStringLetters3_chunks fuel rng before buf
    = Ret (Nat.iter q pcg32_next rng, before ++ written, drop (4 * q) buf)
    ∧ length written = (4 * q)%nat
    ∧ (∀ j k, (j < q)%nat → (k < 4)%nat →
         written !! (4 * j + k)%nat
         = Some (letter (Z.shiftr (pcg32_value (Nat.iter j pcg32_next rng))
                           (8 * Z.of_nat k)))).
Proof.
  induction fuel as [| fuel IH]; intros q l rng before buf Hlen Hl Hfuel; [lia |].
  cbn [tpcc.randStringLetters3_chunks]. destruct q as [| q].
  - rewrite decide_False by lia. exists []. rewrite app_nil_r.
    split_and!; [done | done | lia].
  - rewrite decide_True by lia.
    destruct (tpcc.pcg32_Uint32 rng) as [r rng1] eqn:Hr.
    assert (Hnext : rng1 = pcg32_next rng) by (unfold pcg32_next; by rewrite Hr).
    assert (Hval : r = pcg32_value rng) by (unfold pcg32_value; by rewrite Hr).
    rewrite store4 by lia.
    rewrite (take_app_length' [_; _; _; _]) by done.
    rewrite (drop_app_length' [_; _; _; _]) by done.
    destruct (IH q l rng1
                (before ++ [letter r; letter (Z.shiftr r 8);
                            letter (Z.shiftr r 16); letter (Z.shiftr r 24)])
                (drop 4 buf))
      as (written & Hrun & Hw & Hnew);
      [rewrite length_drop; lia | lia | rewrite length_drop; lia |].
    unfold letter in Hrun. rewrite Hrun.
    exists ([letter r; letter (Z.shiftr r 8); letter (Z.shiftr r 16);
             letter (Z.shiftr r 24)] ++ written).
    split_and!.
    + rewrite Nat.iter_succ_r, <- Hnext, <- app_assoc, drop_drop.
      replace (4 * S q)%nat with (4 + 4 * q)%nat by lia. done.
    + rewrite length_app. simpl length. lia.
    + intros [| j] k Hj Hk.
      * change (Nat.iter 0 pcg32_next rng) with rng. rewrite <- Hval.
        rewrite Nat.mul_0_r, Nat.add_0_l.
        destruct k as [| [| [| [| k]]]]; try lia; done.
      * replace (4 * S j + k)%nat with (4 + (4 * j + k))%nat by lia.
        rewrite lookup_app_r by (simpl length; lia).
        replace (4 + (4 * j + k) - length [letter r; letter (Z.shiftr r 8);
                   letter (Z.shiftr r 16); letter (Z.shiftr r 24)])%nat
          with (4 * j + k)%nat by (simpl length; lia).
        rewrite Hnew by lia. rewrite Nat.iter_succ_r, <- Hnext. done.
Qed.

Lemma randStringLetters3_spec rng buf q l :
  length buf = (4 * q + l)%nat → (l < 4)%nat →
  ∃ buf',
    tpcc.randStringLetters3 rng buf
    = Ret (Nat.iter (q + (if decide (l = 0%nat) then 0 else 1)) pcg32_next rng, buf')
    ∧ length buf' = length buf
    ∧ (∀ j k, (k < 4)%nat → (4 * j + k < length buf)%nat →
         buf' !! (4 * j + k)%nat
         = Some (letter (Z.shiftr (pcg32_value (Nat.iter j pcg32_next rng))
                           (8 * Z.of_nat k)))).
Proof.
  intros Hlen Hl. unfold tpcc.randStringLetters3.
  destruct (randStringLetters3_chunks_spec (S (length buf)) q l rng [] buf)
    as (written & -> & Hw & Hchunks); [done | done | lia |].
  cbn [mbind run_bind]. rewrite app_nil_l.
  assert (Hrest : length (drop (4 * q) buf) = l) by (rewrite length_drop; lia).
  destruct (decide (l = 0%nat)) as [-> | Hl0].
  - rewrite decide_False by lia. rewrite Nat.add_0_r.
    apply nil_length_inv in Hrest. rewrite Hrest, app_nil_r.
    exists written. split_and!; [done | lia |].
    intros j k Hk Hjk. apply Hchunks; lia.
  - rewrite decide_True by lia.
    destruct (tpcc.pcg32_Uint32 (Nat.iter q pcg32_next rng)) as [r rng1] eqn:Hr.
    assert (Hnext : rng1 = pcg32_next (Nat.iter q pcg32_next rng)).
    { change (rng1 = (tpcc.pcg32_Uint32 (Nat.iter q pcg32_next rng)).2).
      by rewrite Hr. }
    assert (Hval : r = pcg32_value (Nat.iter q pcg32_next rng)).
    { change (r = (tpcc.pcg32_Uint32 (Nat.iter q pcg32_next rng)).1).
      by rewrite Hr. }
    destruct (randStringLetters3_rest_spec (length (drop (4 * q) buf)) 0 r
                (drop (4 * q) buf)) as (rest & -> & Hlr & _ & Hnew); [lia |].
    cbn [mbind run_bind].
    exists (written ++ rest). split_and!.
    + rewrite Nat.add_1_r. cbn [Nat.iter nat_rect]. by rewrite Hnext.
    + rewrite length_app. lia.
    + intros j k Hk Hjk. destruct (decide (j < q)%nat) as [Hj | Hj].
      * rewrite lookup_app_l by lia. by apply Hchunks.
      * assert (j = q) as -> by lia.
        rewrite lookup_app_r by lia.
        replace (4 * q + k - length written)%nat with (0 + k)%nat by lia.
        rewrite Hnew by lia. by rewrite Hval.
Qed.

(** X16: [randStringLetters3] never panics: for every generator and buffer it
    returns, the buffer has the length it had, and every byte of it is one
    of the upper-case letters ['A'..'Z']. *)
Theorem randStringLetters3_letters rng buf :
  ∃ rng' buf',
    tpcc.randStringLetters3 rng buf = Ret (rng', buf')
    ∧ length buf' = length buf
    ∧ Forall is_letter buf'.
Proof.
  destruct (randStringLetters3_spec rng buf (length buf / 4) (length buf mod 4))
    as (buf' & Hrun & Hlen & Hbytes).
  { apply Nat.div_mod_eq. } { apply Nat.mod_upper_bound. lia. }
  eexists _, buf'. split_and!; [apply Hrun | done |].
  apply Forall_lookup. intros i b Hi.
  assert (Hlt : (i < length buf)%nat) by (rewrite <- Hlen; by eapply lookup_lt_Some).
  rewrite (Nat.div_mod_eq i 4) in Hi.
  rewrite Hbytes in Hi.
  - injection Hi as <-. apply letter_spec.
  - apply Nat.mod_upper_bound. lia.
  - by rewrite <- Nat.div_mod_eq.
Qed.

(** X17: [randStringLetters3] calls [Uint32] once for every four bytes of the
    buffer, begun ones too: the generator comes back as [⌈len(buf)/4⌉] calls
    leave it, and untouched for the empty buffer. *)
Theorem randStringLetters3_draws rng buf :
  ∃ buf',
    tpcc.randStringLetters3 rng buf
    = Ret (Nat.iter ((length buf + 3) / 4) pcg32_next rng, buf').
Proof.
  pose proof (Nat.div_mod_eq (length buf) 4) as Hdm.
  pose proof (Nat.mod_upper_bound (length buf) 4 ltac:(lia)) as Hm.
  destruct (randStringLetters3_spec rng buf (length buf / 4) (length buf mod 4))
    as (buf' & Hrun & _); [done | done |].
  exists buf'. rewrite Hrun. do 3 f_equal.
  set (q := (length buf / 4)%nat) in *. set (l := (length buf mod 4)%nat) in *.
  clearbody q l. rewrite Hdm.
  replace (4 * q + l + 3)%nat with (q * 4 + (l + 3))%nat by lia.
  rewrite Nat.div_add_l by lia. f_equal.
  destruct l as [| [| [| [| l]]]]; try lia; reflexivity.
Qed.

(** X18: The byte that [randStringLetters3] leaves at the place [4 * j + k] of
    the buffer is the letter numbered by the [k]-th byte [b] of the [j]-th
    value of the generator: ['A' + ⌊26 * b / 256⌋]. *)
Theorem randStringLetters3_bytes rng buf j k :
  (k < 4)%nat → (4 * j + k < length buf)%nat →
  ∃ rng' buf',
    tpcc.randStringLetters3 rng buf = Ret (rng', buf')
    ∧ buf' !! (4 * j + k)%nat
      = Some (65 + (Z.shiftr (pcg32_value (Nat.iter j pcg32_next rng))
                      (8 * Z.of_nat k) mod 2 ^ 8) * 26 / 2 ^ 8).
Proof.
  intros Hk Hjk.
  destruct (randStringLetters3_spec rng buf (length buf / 4) (length buf mod 4))
    as (buf' & Hrun & Hlen & Hbytes).
  { apply Nat.div_mod_eq. } { apply Nat.mod_upper_bound. lia. }
  eexists _, buf'. split; [apply Hrun |].
  rewrite Hbytes by done. f_equal. apply letter_spec.
Qed.

(** X19: What [randStringLetters3] writes depends on the generator and on the
    length of the buffer only: every byte of the buffer is overwritten. *)
Theorem randStringLetters3_overwrites rng buf1 buf2 :
  length buf1 = length buf2 →
  tpcc.randStringLetters3 rng buf1 = tpcc.randStringLetters3 rng buf2.
Proof.
  intros Hlen.
  destruct (randStringLetters3_spec rng buf1 (length buf1 / 4) (length buf1 mod 4))
    as (buf1' & -> & Hlen1 & Hbytes1).
  { apply Nat.div_mod_eq. } { apply Nat.mod_upper_bound. lia. }
  destruct (randStringLetters3_spec rng buf2 (length buf1 / 4) (length buf1 mod 4))
    as (buf2' & -> & Hlen2 & Hbytes2).
  { rewrite <- Hlen. apply Nat.div_mod_eq. } { apply Nat.mod_upper_bound. lia. }
  do 2 f_equal. apply list_eq. intros i.
  destruct (decide (i < length buf1)%nat) as [Hi | Hi].
  - rewrite (Nat.div_mod_eq i 4).
    pose proof (Nat.mod_upper_bound i 4 ltac:(lia)).
    rewrite Hbytes1, Hbytes2; rewrite <- ?Nat.div_mod_eq; try done. lia.
  - rewrite !lookup_ge_None_2; [done | lia | lia].
Qed.

Lemma randStringLetters3_bytes_witness :
  (1 < 4)%nat ∧ (4 * 1 + 1 < length [0; 0; 0; 0; 0; 0; 0])%nat
  ∧ ∃ rng' buf',
      tpcc.randStringLetters3 (tpcc.newPCG32 42) [0; 0; 0; 0; 0; 0; 0]
      = Ret (rng', buf')
      ∧ buf' !! (4 * 1 + 1)%nat
        = Some (65 + (Z.shiftr
                        (pcg32_value (Nat.iter 1 pcg32_next (tpcc.newPCG32 42)))
                        (8 * Z.of_nat 1) mod 2 ^ 8) * 26 / 2 ^ 8).
Proof.
  split; [lia |]. split; [simpl; lia |].
  apply randStringLetters3_bytes; [lia | simpl; lia].
Defined.

Lemma randStringLetters3_overwrites_witness :
  length [1; 2; 3; 4; 5] = length [0; 0; 0; 0; 0]
  ∧ tpcc.randStringLetters3 (tpcc.newPCG32 42) [1; 2; 3; 4; 5]
    = tpcc.randStringLetters3 (tpcc.newPCG32 42) [0; 0; 0; 0; 0].
Proof.
  split; [reflexivity |]. apply randStringLetters3_overwrites. reflexivity.
Defined.

(** ** [randStringLetters2] *)

Section randStringLetters2.
Context `{tpcc.Source R}.

Lemma store8 {A} (K : list Z → run A) buf x0 x1 x2 x3 x4 x5 x6 x7 :
  (8 ≤ length buf)%nat →
  (buf ← store buf 0 x0; buf ← store buf 1 x1;
   buf ← store buf 2 x2; buf ← store buf 3 x3;
   buf ← store buf 4 x4; buf ← store buf 5 x5;
   buf ← store buf 6 x6; buf ← store buf 7 x7; K buf)
  = K ([x0; x1; x2; x3; x4; x5; x6; x7] ++ drop 8 buf).
Proof.
  intros Hlen.
  destruct buf as [| b0 [| b1 [| b2 [| b3 [| b4 [| b5 [| b6 [| b7 rest]]]]]]]];
    simpl in Hlen; try lia.
  rewrite !store_Ret by (simpl; lia). simpl. by rewrite drop_0.
Qed.

Lemma index_8 buf :
  index buf 8 = if decide (8 < length buf)%nat then Ret (default 0 (buf !! 8%nat))
                else Panic.
Proof.
  unfold index. destruct (buf !! 8%nat) as [b |] eqn:Hb.
  - apply lookup_lt_Some in Hb. by rewrite decide_True.
  - apply lookup_ge_None in Hb. rewrite decide_False by lia. done.
Qed.

Lemma randStringLetters2_chunks_spec fuel : ∀ q l rng before buf,
  length buf = (8 * q + l)%nat → (l < 8)%nat → (length buf < fuel)%nat →
  if decide (l = 0 ∧ 0 < q)%nat
  then tpcc.randStringLetters2_chunks fuel rng before buf = Panic
  else ∃ written,
    tpcc.randStringLetters2_chunks fuel rng before buf
    = Ret (Nat.iter q source_next rng, before ++ written, drop (8 * q) buf)
    ∧ length written = (8 * q)%nat
    ∧ Forall is_letter written.
Proof.
  induction fuel as [| fuel IH]; intros q l rng before buf Hlen Hl Hfuel; [lia |].
  cbn [tpcc.randStringLetters2_chunks]. destruct q as [| q].
  - rewrite decide_False by lia. rewrite decide_False by lia.
    exists []. rewrite app_nil_r. split_and!; [done | done | constructor].
  - rewrite (decide_True (P := (8 ≤ length buf)%nat)) by lia.
    destruct (tpcc.Uint64 rng) as [r rng1] eqn:Hr.
    assert (Hnext : rng1 = source_next rng) by (unfold source_next; by rewrite Hr).
    rewrite index_8.
    destruct (decide (8 < length buf)%nat) as [Hlong | Hshort].
    + cbn [mbind run_bind]. rewrite store8 by lia.
      rewrite (take_app_length' [_; _; _; _; _; _; _; _]) by done.
      rewrite (drop_app_length' [_; _; _; _; _; _; _; _]) by done.
      specialize (IH q l rng1
        (before ++ [letter (uint64 r); letter (Z.shiftr (uint64 r) 8);
                    letter (Z.shiftr (uint64 r) 16); letter (Z.shiftr (uint64 r) 24);
                    letter (Z.shiftr (uint64 r) 32); letter (Z.shiftr (uint64 r) 40);
                    letter (Z.shiftr (uint64 r) 48); letter (Z.shiftr (uint64 r) 56)])
        (drop 8 buf)).
      rewrite length_drop in IH.
      specialize (IH ltac:(lia) ltac:(lia) ltac:(lia)).
      unfold letter in IH.
      destruct (decide (l = 0 ∧ 0 < q)%nat) as [Hpanic | Hok].
      * rewrite decide_True by lia. exact IH.
      * rewrite decide_False by lia.
        destruct IH as (written & -> & Hw & Hletters).
        exists ([letter (uint64 r); letter (Z.shiftr (uint64 r) 8);
                 letter (Z.shiftr (uint64 r) 16); letter (Z.shiftr (uint64 r) 24);
                 letter (Z.shiftr (uint64 r) 32); letter (Z.shiftr (uint64 r) 40);
                 letter (Z.shiftr (uint64 r) 48); letter (Z.shiftr (uint64 r) 56)]
                ++ written).
        split_and!.
        -- rewrite Nat.iter_succ_r, <- Hnext, <- app_assoc, drop_drop.
           replace (8 * S q)%nat with (8 + 8 * q)%nat by lia. done.
        -- rewrite length_app. simpl length. lia.
        -- apply Forall_app. split; [| done].
           repeat (constructor; [apply letter_spec |]). constructor.
    + rewrite decide_True by lia. done.
Qed.

Lemma randStringLetters2_rest_spec todo : ∀ i rng r n buf,
  n ≠ 0 → (i + todo ≤ length buf)%nat →
  ∃ buf', tpcc.randStringLetters2_rest todo i rng r n buf = Ret (rng, buf')
    ∧ length buf' = length buf
    ∧ (∀ j, (j < i ∨ i + todo ≤ j)%nat → buf' !! j = buf !! j)
    ∧ (∀ k, (k < todo)%nat → ∃ b, buf' !! (i + k)%nat = Some b ∧ is_letter b).
Proof.
  induction todo as [| todo IH]; intros i rng r n buf Hn Hlen;
    cbn [tpcc.randStringLetters2_rest].
  - exists buf. split_and!; [done | done | done | lia].
  - rewrite decide_False by done. rewrite store_Ret by lia. cbn [mbind run_bind].
    destruct (IH (S i) rng (Z.shiftr r 8) n
                (<[i := uint8 (65 + uint8 (tpcc.uint8n (uint8 r) 26))]> buf))
      as (buf' & -> & Hl & Hsame & Hnew); [done | rewrite length_insert; lia |].
    rewrite length_insert in Hl.
    exists buf'. split_and!; [done | done | |].
    + intros j Hj. rewrite Hsame by lia. apply list_lookup_insert_ne. lia.
    + intros [| k] Hk.
      * rewrite Nat.add_0_r, Hsame by lia.
        rewrite list_lookup_insert_eq by lia. eexists. split; [done |].
        apply (letter_spec r).
      * replace (i + S k)%nat with (S i + k)%nat by lia. apply Hnew. lia.
Qed.

Lemma randStringLetters2_spec rng buf q l :
  length buf = (8 * q + l)%nat → (l < 8)%nat →
  if decide (l = 0 ∧ 0 < q)%nat
  then tpcc.randStringLetters2 rng buf = Panic
  else ∃ buf',
    tpcc.randStringLetters2 rng buf
    = Ret (Nat.iter (q + (if decide (l = 0%nat) then 0 else 1)) source_next rng, buf')
    ∧ length buf' = length buf
    ∧ Forall is_letter buf'.
Proof.
  intros Hlen Hl. unfold tpcc.randStringLetters2.
  pose proof (randStringLetters2_chunks_spec (S (length buf)) q l rng [] buf
                Hlen Hl ltac:(lia)) as Hchunks.
  destruct (decide (l = 0 ∧ 0 < q)%nat) as [Hpanic | Hok].
  - by rewrite Hchunks.
  - destruct Hchunks as (written & -> & Hw & Hletters).
    cbn [mbind run_bind]. rewrite app_nil_l.
    assert (Hrest : length (drop (8 * q) buf) = l) by (rewrite length_drop; lia).
    destruct (decide (l = 0%nat)) as [-> | Hl0].
    + rewrite decide_False by lia. rewrite Nat.add_0_r.
      apply nil_length_inv in Hrest. rewrite Hrest, app_nil_r.
      exists written. split_and!; [done | lia | done].
    + rewrite decide_True by lia.
      destruct (drop (8 * q) buf) as [| b rest] eqn:Hdrop;
        [simpl in Hrest; lia |].
      cbn [tpcc.randStringLetters2_rest length]. rewrite decide_True by done.
      destruct (tpcc.Uint64 (Nat.iter q source_next rng)) as [r rng1] eqn:Hr.
      assert (Hnext : rng1 = source_next (Nat.iter q source_next rng)).
      { change (rng1 = (tpcc.Uint64 (Nat.iter q source_next rng)).2).
        by rewrite Hr. }
      rewrite store_Ret by (simpl; lia). cbn [mbind run_bind].
      destruct (randStringLetters2_rest_spec (length rest) 1 rng1
                  (Z.shiftr (uint64 r) 8) 8
                  (<[0%nat := uint8 (65 + uint8 (tpcc.uint8n (uint8 (uint64 r)) 26))]>
                     (b :: rest)))
        as (buf' & -> & Hl' & Hsame & Hnew);
        [done | rewrite length_insert; simpl; lia |].
      rewrite length_insert in Hl'. cbn [mbind run_bind].
      exists (written ++ buf'). split_and!.
      * rewrite Nat.add_1_r. cbn [Nat.iter nat_rect]. by rewrite Hnext.
      * rewrite length_app. simpl in Hl', Hrest. lia.
      * apply Forall_app. split; [done |].
        apply Forall_lookup. intros j x Hj.
        assert (Hjl : (j < S (length rest))%nat).
        { apply lookup_lt_Some in Hj. simpl in Hl'. lia. }
        destruct j as [| j].
        -- rewrite Hsame in Hj by lia. simpl in Hj. injection Hj as <-.
           apply (letter_spec (uint64 r)).
        -- destruct (Hnew j ltac:(lia)) as (x' & Hx' & Hlet).
           simpl in Hx'. rewrite Hx' in Hj. by injection Hj as <-.
Qed.

End randStringLetters2.

(** X20: [randStringLetters2] panics, with an index out of range, exactly on the
    buffers whose length is a multiple of 8 other than 0, whatever the
    source: the probe [buf[8]] of its first loop needs nine bytes where
    eight are written. *)
Theorem randStringLetters2_panics `{tpcc.Source R} (rng : R) (buf : list Z) :
  tpcc.randStringLetters2 rng buf = Panic
  ↔ (0 < length buf)%nat ∧ (length buf mod 8 = 0)%nat.
Proof.
  pose proof (Nat.div_mod_eq (length buf) 8) as Hdm.
  pose proof (Nat.mod_upper_bound (length buf) 8 ltac:(lia)) as Hm.
  pose proof (randStringLetters2_spec rng buf (length buf / 8) (length buf mod 8)
                Hdm Hm) as Hspec.
  destruct (decide (length buf mod 8 = 0 ∧ 0 < length buf / 8)%nat) as [Hp | Hok].
  - split; [intros _; lia | done].
  - destruct Hspec as (buf' & -> & _). split; [done | lia].
Qed.

(** X21: On every other buffer [randStringLetters2] returns: the buffer has the
    length it had, every byte of it is one of the letters ['A'..'Z'], and
    the source has been asked for [⌈len(buf)/8⌉] values. *)
Theorem randStringLetters2_letters `{tpcc.Source R} (rng : R) (buf : list Z) :
  (length buf = 0 ∨ length buf mod 8 ≠ 0)%nat →
  ∃ buf',
    tpcc.randStringLetters2 rng buf
    = Ret (Nat.iter ((length buf + 7) / 8) source_next rng, buf')
    ∧ length buf' = length buf
    ∧ Forall is_letter buf'.
Proof.
  intros Hlen.
  pose proof (Nat.div_mod_eq (length buf) 8) as Hdm.
  pose proof (Nat.mod_upper_bound (length buf) 8 ltac:(lia)) as Hm.
  pose proof (randStringLetters2_spec rng buf (length buf / 8) (length buf mod 8)
                Hdm Hm) as Hspec.
  rewrite decide_False in Hspec by lia.
  destruct Hspec as (buf' & Hrun & Hl & Hletters).
  exists buf'. split_and!; [| done | done].
  rewrite Hrun. do 3 f_equal.
  set (q := (length buf / 8)%nat) in *. set (l := (length buf mod 8)%nat) in *.
  clearbody q l. rewrite Hdm.
  replace (8 * q + l + 7)%nat with (q * 8 + (l + 7))%nat by lia.
  rewrite Nat.div_add_l by lia. f_equal.
  destruct l as [| [| [| [| [| [| [| [| l]]]]]]]]; try lia; reflexivity.
Qed.

Lemma randStringLetters2_letters_witness :
  (length [0; 0; 0] = 0 ∨ length [0; 0; 0] mod 8 ≠ 0)%nat
  ∧ ∃ buf',
      tpcc.randStringLetters2 (H := example_Source) 5 [0; 0; 0]
      = Ret (Nat.iter ((length [0; 0; 0] + 7) / 8)
               (source_next (H := example_Source)) 5, buf')
      ∧ length buf' = length [0; 0; 0]
      ∧ Forall is_letter buf'.
Proof.
  assert (Hlen : (length [0; 0; 0] = 0 ∨ length [0; 0; 0] mod 8 ≠ 0)%nat)
    by (right; vm_compute; discriminate).
  split; [exact Hlen |].
  apply (randStringLetters2_letters (H := example_Source)). exact Hlen.
Defined.

(** ** [randStringLetters4] *)

Lemma byte4_0 w :
  uint8 (65 + uint8 (uint32 (w - w / 26))) = byte4 w 0.
Proof. unfold byte4. change (26 ^ Z.of_nat 0) with 1. by rewrite Z.div_1_r. Qed.

Lemma byte4_S w k : 0 ≤ w → byte4 (w / 26) k = byte4 w (S k).
Proof.
  intros Hw. unfold byte4. rewrite Nat2Z.inj_succ, Z.pow_succ_r by lia.
  assert (0 < 26 ^ Z.of_nat k) by (apply Z.pow_pos_nonneg; lia).
  rewrite !Z.div_div by lia. done.
Qed.

Lemma div6_shift k : (5 ≤ k)%nat →
  (S k / 6 = S ((k - 5) / 6) ∧ S k mod 6 = (k - 5) mod 6)%nat.
Proof.
  intros Hk. replace (S k) with ((k - 5) + 1 * 6)%nat by lia.
  rewrite Nat.div_add, Nat.Div0.mod_add by lia. lia.
Qed.

Lemma randStringLetters4_loop_spec todo : ∀ i rng r m buf,
  (m ≤ 6)%nat → 0 ≤ r → (i + todo ≤ length buf)%nat →
  ∃ buf',
    tpcc.randStringLetters4_loop todo i rng r (Z.of_nat m) buf
    = Ret (Nat.iter (if decide (todo ≤ m)%nat then 0 else (todo - m + 5) / 6)
             pcg32_next rng, buf')
    ∧ length buf' = length buf
    ∧ (∀ j, (j < i ∨ i + todo ≤ j)%nat → buf' !! j = buf !! j)
    ∧ (∀ k, (k < todo)%nat →
         buf' !! (i + k)%nat
         = Some (if decide (k < m)%nat then byte4 r k
                 else byte4 (pcg32_value (Nat.iter ((k - m) / 6) pcg32_next rng))
                        ((k - m) mod 6))).
Proof.
  induction todo as [| todo IH]; intros i rng r m buf Hm Hr Hlen;
    cbn [tpcc.randStringLetters4_loop].
  - exists buf. rewrite decide_True by lia. split_and!; [done | done | done | lia].
  - destruct m as [| m].
    + rewrite (decide_True (P := Z.of_nat 0 = 0)) by done.
      destruct (tpcc.pcg32_Uint32 rng) as [w rng1] eqn:Hw.
      assert (Hnext : rng1 = pcg32_next rng) by (unfold pcg32_next; by rewrite Hw).
      assert (Hval : w = pcg32_value rng) by (unfold pcg32_value; by rewrite Hw).
      assert (Hw0 : 0 ≤ w) by (rewrite Hval; apply pcg32_Uint32_range).
      rewrite store_Ret by lia. cbn [mbind run_bind].
      replace (int_wrap (6 - 1)) with (Z.of_nat 5) by reflexivity.
      rewrite byte4_0.
      destruct (IH (S i) rng1 (w / 26) 5%nat (<[i := byte4 w 0]> buf))
        as (buf' & -> & Hl & Hsame & Hnew);
        [lia | apply Z.div_pos; lia | rewrite length_insert; lia |].
      rewrite length_insert in Hl.
      exists buf'. split_and!; [| done | |].
      * rewrite (decide_False (P := (S todo ≤ 0)%nat)) by lia. rewrite Nat.sub_0_r.
        replace (S todo + 5)%nat with (todo + 1 * 6)%nat by lia.
        rewrite Nat.div_add by lia. rewrite Nat.add_1_r, Nat.iter_succ_r, <- Hnext.
        destruct (decide (todo ≤ 5)%nat).
        -- by rewrite Nat.div_small by lia.
        -- by replace (todo - 5 + 5)%nat with todo by lia.
      * intros j Hj. rewrite Hsame by lia. apply list_lookup_insert_ne. lia.
      * intros [| k] Hk.
        -- rewrite Nat.add_0_r, Hsame by lia.
           rewrite list_lookup_insert_eq by lia. rewrite decide_False by lia.
           by rewrite Hval.
        -- replace (i + S k)%nat with (S i + k)%nat by lia.
           rewrite Hnew by lia. rewrite (decide_False (P := (S k < 0)%nat)) by lia.
           rewrite Nat.sub_0_r. f_equal.
           destruct (decide (k < 5)%nat) as [Hk5 | Hk5].
           ++ rewrite Nat.div_small, Nat.mod_small by lia.
              change (Nat.iter 0 pcg32_next rng) with rng.
              rewrite <- Hval. by apply byte4_S.
           ++ destruct (div6_shift k ltac:(lia)) as [-> ->].
              by rewrite Nat.iter_succ_r, <- Hnext.
    + rewrite decide_False by lia.
      rewrite store_Ret by lia. cbn [mbind run_bind].
      replace (int_wrap (Z.of_nat (S m) - 1)) with (Z.of_nat m)
        by (rewrite int_wrap_small; unfold int_min, int_max; lia).
      rewrite byte4_0.
      destruct (IH (S i) rng (r / 26) m (<[i := byte4 r 0]> buf))
        as (buf' & -> & Hl & Hsame & Hnew);
        [lia | apply Z.div_pos; lia | rewrite length_insert; lia |].
      rewrite length_insert in Hl.
      exists buf'. split_and!; [| done | |].
      * destruct (decide (todo ≤ m)%nat).
        -- by rewrite decide_True by lia.
        -- by rewrite decide_False by lia.
      * intros j Hj. rewrite Hsame by lia. apply list_lookup_insert_ne. lia.
      * intros [| k] Hk.
        -- rewrite Nat.add_0_r, Hsame by lia.
           rewrite list_lookup_insert_eq by lia. by rewrite decide_True by lia.
        -- replace (i + S k)%nat with (S i + k)%nat by lia.
           rewrite Hnew by lia. f_equal.
           destruct (decide (k < m)%nat).
           ++ rewrite decide_True by lia. by apply byte4_S.
           ++ by rewrite decide_False by lia.
Qed.

(** X22: [randStringLetters4] never panics; the buffer comes back with the length
    it had, and the generator as [⌈len(buf)/6⌉] calls of [Uint32] leave it:
    one call for every six bytes, begun ones too. *)
Theorem randStringLetters4_draws rng buf :
  ∃ buf',
    tpcc.randStringLetters4 rng buf
    = Ret (Nat.iter ((length buf + 5) / 6) pcg32_next rng, buf')
    ∧ length buf' = length buf.
Proof.
  destruct (randStringLetters4_loop_spec (length buf) 0 rng 0 0%nat buf)
    as (buf' & Hrun & Hl & _); [lia | lia | lia |].
  exists buf'. split; [| done]. unfold tpcc.randStringLetters4.
  change 0 with (Z.of_nat 0) at 2. rewrite Hrun. do 3 f_equal.
  destruct (decide (length buf ≤ 0)%nat) as [Hz | Hnz].
  - assert (length buf = 0%nat) as -> by lia. reflexivity.
  - by rewrite Nat.sub_0_r.
Qed.

(** X23: The byte that [randStringLetters4] leaves at the place [6 * j + k] of
    the buffer comes from the [j]-th value [w] of the generator: it is
    ['A' + (w / 26^k - w / 26^(k+1))] cut to 8 bits. *)
Theorem randStringLetters4_bytes rng buf j k :
  (k < 6)%nat → (6 * j + k < length buf)%nat →
  ∃ rng' buf',
    tpcc.randStringLetters4 rng buf = Ret (rng', buf')
    ∧ let w := pcg32_value (Nat.iter j pcg32_next rng) in
      buf' !! (6 * j + k)%nat
      = Some ((65 + (w / 26 ^ Z.of_nat k - w / 26 ^ Z.of_nat (S k))) mod 2 ^ 8).
Proof.
  intros Hk Hjk.
  destruct (randStringLetters4_loop_spec (length buf) 0 rng 0 0%nat buf)
    as (buf' & Hrun & _ & _ & Hbytes); [lia | lia | lia |].
  eexists _, buf'. unfold tpcc.randStringLetters4.
  change 0 with (Z.of_nat 0) at 2. rewrite Hrun. split; [done |].
  cbv zeta. set (w := pcg32_value (Nat.iter j pcg32_next rng)).
  change (6 * j + k)%nat with (0 + (6 * j + k))%nat.
  rewrite Hbytes by lia. rewrite decide_False by lia. rewrite Nat.sub_0_r.
  replace (6 * j + k)%nat with (k + j * 6)%nat by lia.
  rewrite Nat.div_add, Nat.Div0.mod_add by lia.
  rewrite Nat.div_small, Nat.mod_small by lia. f_equal.
  change (Nat.iter (0 + j) pcg32_next rng) with (Nat.iter j pcg32_next rng).
  fold w. unfold byte4.
  assert (Hw : 0 ≤ w < 2 ^ 32) by apply pcg32_Uint32_range.
  assert (Hp : 0 < 26 ^ Z.of_nat k) by (apply Z.pow_pos_nonneg; lia).
  rewrite Z.div_div by lia.
  replace (26 ^ Z.of_nat k * 26) with (26 ^ Z.of_nat (S k))
    by (rewrite Nat2Z.inj_succ, Z.pow_succ_r; lia).
  assert (Hp' : 0 < 26 ^ Z.of_nat (S k)) by (apply Z.pow_pos_nonneg; lia).
  assert (Hd : 0 ≤ w / 26 ^ Z.of_nat (S k) ≤ w / 26 ^ Z.of_nat k ≤ w).
  { split; [apply Z.div_pos; lia |]. split.
    - rewrite Nat2Z.inj_succ, Z.pow_succ_r, Z.mul_comm, <- Z.div_div by lia.
      apply Z.div_le_upper_bound; [lia |].
      assert (0 ≤ w / 26 ^ Z.of_nat k) by (apply Z.div_pos; lia). lia.
    - apply Z.div_le_upper_bound; [lia |]. nia. }
  rewrite uint32_small by lia. unfold uint8. by rewrite Zplus_mod_idemp_r.
Qed.

Lemma randStringLetters4_bytes_witness :
  (2 < 6)%nat ∧ (6 * 1 + 2 < length (replicate 10 0))%nat
  ∧ ∃ rng' buf',
      tpcc.randStringLetters4 (tpcc.newPCG32 42) (replicate 10 0) = Ret (rng', buf')
      ∧ let w := pcg32_value (Nat.iter 1 pcg32_next (tpcc.newPCG32 42)) in
        buf' !! (6 * 1 + 2)%nat
        = Some ((65 + (w / 26 ^ Z.of_nat 2 - w / 26 ^ Z.of_nat (S 2))) mod 2 ^ 8).
Proof.
  split; [lia |]. split; [simpl; lia |].
  apply randStringLetters4_bytes; [lia | simpl; lia].
Defined.

(** X24: [randStringLetters4] does not keep to letters: from the generator of
    [newPCG32(42)] the first byte it writes is 176, past ['Z']. *)
Theorem randStringLetters4_not_letters :
  ∃ rng buf rng' buf',
    tpcc.randStringLetters4 rng buf = Ret (rng', buf')
    ∧ ¬ Forall is_letter buf'.
Proof.
  exists (tpcc.newPCG32 42), [0]. eexists _, _. split; [vm_compute; reflexivity |].
  intros Hall. apply Forall_cons in Hall as [[_ Hle] _]. vm_compute in Hle. done.
Qed.
